(** * The Identro SDK event delivery pipeline

    A shallow embedding of the bounded event queue ([storage.ts]), the retry
    executor ([utils/retry.ts]), the batcher ([batcher.ts]) and the client
    constructor ([client.ts]), followed by the properties of the pipeline.

    Conventions of the embedding.
    - A JavaScript [number] that the code uses as a count, a size or a delay
      is a [Z]; [NaN], infinities and fractions are outside the model.
    - An array is a [list], oldest element first.
    - A [Set] of identifiers is a [gset string].
    - A promise that resolves or rejects is a value of a sum or of a small
      result type; the code between two [await]s runs as one step. *)

From Stdlib Require Import ZArith Lia.
From stdpp Require Import base numbers option list gmap sets strings pretty.

Local Open Scope Z_scope.

(** ** Part I: the program *)

(** *** [types.ts] *)

Inductive Status := success | fail.

(** The fields of [AgentEvent] that are required by the interface.  The
    optional fields are an open bag that the pipeline never reads. *)
Record AgentEvent := {
  event_id : string;
  agent_id : string;
  task_id : string;
  framework : string;
  status : Status;
  latency_ms : Z
}.

Record BatchResult := {
  accepted : Z;
  rejected : Z;
  errors : option (list (string * string))   (* (event_id, error) *)
}.

(** A JavaScript [Error] object, with the properties the pipeline inspects. *)
Record JsError := {
  name : string;
  message : string;
  code : option string;
  http_status : option Z       (* the [status] property *)
}.

(** [new Error(message)] *)
Definition new_Error (msg : string) : JsError :=
  {| name := "Error"; message := msg; code := None; http_status := None |}.

(** *** [storage.ts] *)

Module MemoryQueueStorage.

Record t := {
  queue : list AgentEvent;
  maxSize : Z
}.

(** [constructor(maxSize: number = 10000)] *)
Definition constructor (maxSize : option Z) : t :=
  {| queue := []; maxSize := default 10000 maxSize |}.

(** [Array.prototype.shift] drops the first element, if there is one. *)
Definition array_shift {A} (l : list A) : list A := drop 1 l.

(** [Array.prototype.slice(0, end)] for an integral [end]: a negative
    [end] counts from the end of the array. *)
Definition array_slice0 {A} (finish : Z) (l : list A) : list A :=
  let len := Z.of_nat (length l) in
  let final := if finish <? 0 then Z.max (len + finish) 0
               else Z.min finish len in
  take (Z.to_nat final) l.

Definition push (event : AgentEvent) (s : t) : t :=
  let q := if Z.of_nat (length (queue s)) >=? maxSize s
           then array_shift (queue s)      (* remove oldest event *)
           else queue s in
  {| queue := q ++ [event]; maxSize := maxSize s |}.

Definition shift (s : t) : option AgentEvent * t :=
  (head (queue s), {| queue := array_shift (queue s); maxSize := maxSize s |}).

(** [peek] reads the array and assigns nothing; the storage it leaves
    behind is returned next to the slice so that this can be stated. *)
Definition peek (count : Z) (s : t) : list AgentEvent * t :=
  (array_slice0 count (queue s), s).

Definition remove (eventIds : list string) (s : t) : t :=
  let idsSet : gset string := list_to_set eventIds in
  {| queue := filter (fun event => event_id event ∉ idsSet) (queue s);
     maxSize := maxSize s |}.

Definition size (s : t) : Z := Z.of_nat (length (queue s)).

Definition clear (s : t) : t := {| queue := []; maxSize := maxSize s |}.

(** A run of [push] calls, oldest first. *)
Definition push_all (events : list AgentEvent) (s : t) : t :=
  foldl (fun acc e => push e acc) s events.

End MemoryQueueStorage.

Module Q := MemoryQueueStorage.

(** [createQueueStorage()] *)
Definition createQueueStorage : MemoryQueueStorage.t :=
  MemoryQueueStorage.constructor None.

(** *** The environment: the network and the observable effects *)

(** The [POST] that [sendBatch] issues. *)
Record Request := {
  url : string;
  identro_key : string;                (* the [X-Identro-Key] header *)
  body_events : list AgentEvent;
  body_batch_id : string
}.

(** What the pipeline reads of a [fetch] response; [json] is the outcome of
    [response.json()], which may itself reject. *)
Record Response := {
  ok : bool;
  status_code : Z;                     (* [response.status] *)
  statusText : string;
  json : JsError + BatchResult
}.

(** The world outside the process: the collector behind [fetch] and the
    source of [crypto.randomUUID()]. *)
Class Network := {
  Env : Type;
  fetch : Request -> Env -> (JsError + Response) * Env;
  randomUUID : Env -> string * Env
}.

(** The effects an observer of the pipeline can see, in the order they
    happen.  A call of the operation handed to [withRetry] is recorded by
    [Invoked]; for the batcher that operation is the [fetch] of a batch, so
    an [Invoked] there is one call of the transport. *)
Inductive IOEvent :=
  | Invoked (attempt : Z)                        (* [withRetry] calls [fn()] *)
  | RetryHook (error : JsError) (attempt : Z)    (* [onRetry(lastError, attempt + 1)] *)
  | Waited (delay : Z)                           (* [setTimeout(resolve, delay)] *)
  | ErrorObserved (error : JsError) (events : list AgentEvent).
                                                 (* [config.onError(err, events)] *)

Record World `{Network} := {
  env : Env;
  trace : list IOEvent
}.

Definition record_io `{Network} (ev : IOEvent) (w : World) : World :=
  {| env := env w; trace := trace w ++ [ev] |}.

(** How an [async] function ends. *)
Inductive Completion :=
  | Resolved
  | Rejected (error : JsError).

(** *** [utils/retry.ts] *)

Module Retry.

(** [onRetry] is an optional callback of type
    [(error, attempt) => void]: the field says whether one was supplied,
    and each call of it is recorded in the trace.  A callback that throws
    is outside the model. *)
Record RetryOptions := {
  maxRetries : Z;
  retryDelay : Z;
  maxDelay : option Z;
  onRetry : bool
}.

(** What [withRetry] does in the end: it returns a value or throws.
    [Threw None] is [throw lastError!] with [lastError] never assigned,
    so the value thrown is [undefined]. *)
Inductive Outcome (T : Type) :=
  | Returned (value : T)
  | Threw (error : option JsError).
Arguments Returned {T} value.
Arguments Threw {T} error.

(** [Math.min(retryDelay * Math.pow(2, attempt), maxDelay)] *)
Definition backoff (retryDelay maxDelay attempt : Z) : Z :=
  Z.min (retryDelay * 2 ^ attempt) maxDelay.

Section withRetry.
Context `{Network} {T : Type}.
Variable fn : Env -> (JsError + T) * Env.
Variable options : RetryOptions.

(** [maxDelay = 30000] in the destructuring of [options]. *)
Definition maxDelay_or_default : Z := default 30000 (maxDelay options).

(** The [for] loop.  [remaining] is the number of values of [attempt]
    for which [attempt <= maxRetries] still holds, that is
    [maxRetries + 1 - attempt]; when none remains the loop is left and
    [throw lastError!] runs.  What the operation throws is an [Error]
    object, which [error instanceof Error ? error : ...] leaves as it is. *)
Fixpoint attempts (remaining : nat) (attempt : Z)
    (lastError : option JsError) (w : World) : Outcome T * World :=
  match remaining with
  | O => (Threw lastError, w)
  | S remaining' =>
      let '(answer, env1) := fn (env w) in
      let w1 := {| env := env1; trace := trace w ++ [Invoked attempt] |} in
      match answer with
      | inr value => (Returned value, w1)
      | inl error =>
          if attempt =? maxRetries options then (Threw (Some error), w1)
          else
            let delay := backoff (retryDelay options) maxDelay_or_default attempt in
            let w2 := if onRetry options
                      then record_io (RetryHook error (attempt + 1)) w1
                      else w1 in
            let w3 := record_io (Waited delay) w2 in
            attempts remaining' (attempt + 1) (Some error) w3
      end
  end.

Definition withRetry (w : World) : Outcome T * World :=
  attempts (Z.to_nat (maxRetries options + 1)) 0 None w.

End withRetry.

Definition isRetryableError (error : JsError) : bool :=
  (* Network errors *)
  if bool_decide (code error = Some "ECONNREFUSED")
     || bool_decide (code error = Some "ETIMEDOUT") then true
  (* HTTP status codes that are retryable *)
  else if match http_status error with
          | Some st => (st =? 429) || ((st >=? 500) && (st <? 600))
          | None => false
          end then true
  (* Fetch errors *)
  else if bool_decide (name error = "NetworkError")
          || bool_decide (name error = "TimeoutError") then true
  else false.

End Retry.

(** *** [batcher.ts] *)

Module Batcher.

(** [onError] is optional: the field says whether the callback was
    supplied, and each call of it is recorded in the trace (a callback that
    throws is outside the model).  The [storage]
    of the configuration is a mutable object; it lives in the state of the
    batcher below.  The logger only prints and is left out. *)
Record BatcherConfig := {
  endpoint : string;
  apiKey : string;
  batchSize : Z;
  flushInterval : Z;
  maxRetries : Z;
  retryDelay : Z;
  onError : bool
}.

Record EventBatcher := {
  config : BatcherConfig;
  storage : MemoryQueueStorage.t;
  flushTimer : option Z;       (* the interval of the running timer *)
  isProcessing : bool;
  isStopped : bool
}.

Definition set_storage (f : MemoryQueueStorage.t -> MemoryQueueStorage.t)
    (b : EventBatcher) : EventBatcher :=
  {| config := config b; storage := f (storage b); flushTimer := flushTimer b;
     isProcessing := isProcessing b; isStopped := isStopped b |}.

Definition set_isProcessing (v : bool) (b : EventBatcher) : EventBatcher :=
  {| config := config b; storage := storage b; flushTimer := flushTimer b;
     isProcessing := v; isStopped := isStopped b |}.

(** [constructor(config)], which calls [startAutoFlush()]. *)
Definition constructor (cfg : BatcherConfig) (st : MemoryQueueStorage.t) : EventBatcher :=
  {| config := cfg; storage := st; flushTimer := Some (flushInterval cfg);
     isProcessing := false; isStopped := false |}.

(** [new Error(`HTTP ${response.status}: ${response.statusText}`)] with
    its [status] property set. *)
Definition http_error (st : Z) (text : string) : JsError :=
  {| name := "Error";
     message := "HTTP " +:+ pretty st +:+ ": " +:+ text;
     code := None;
     http_status := Some st |}.

(** [result.errors?.find(e => e.event_id === id)] *)
Definition find_error (result : BatchResult) (id : string) : option (string * string) :=
  errs ← errors result; snd <$> list_find (fun e => e.1 = id) errs.

(** The identifiers of the events of a batch that the result does not
    name in its [errors]. *)
Definition accepted_ids (result : BatchResult) (events : list AgentEvent) : list string :=
  event_id <$> filter (fun e => find_error result (event_id e) = None) events.

Section batcher.
Context `{Network}.

(** The operation that [sendBatch] hands to [withRetry]. *)
Definition post_events (cfg : BatcherConfig) (events : list AgentEvent)
    (batch_id : string) (e : Env) : (JsError + BatchResult) * Env :=
  let request := {| url := endpoint cfg +:+ "/v1/events";
                    identro_key := apiKey cfg;
                    body_events := events;
                    body_batch_id := batch_id |} in
  let '(answer, e1) := fetch request e in
  match answer with
  | inl error => (inl error, e1)
  | inr response =>
      if negb (ok response)
      then (inl (http_error (status_code response) (statusText response)), e1)
      else (json response, e1)
  end.

Definition sendBatch (cfg : BatcherConfig) (events : list AgentEvent)
    (w : World) : Retry.Outcome BatchResult * World :=
  let '(batch_id, env1) := randomUUID (env w) in
  Retry.withRetry (post_events cfg events batch_id)
    {| Retry.maxRetries := maxRetries cfg;
       Retry.retryDelay := retryDelay cfg;
       Retry.maxDelay := None;
       Retry.onRetry := true |}
    {| env := env1; trace := trace w |}.

(** [processBatch] after its first line: [events] is what [peek]
    returned. *)
Definition processBatch_of (events : list AgentEvent) (b : EventBatcher)
    (w : World) : Completion * EventBatcher * World :=
  if bool_decide (length events = 0%nat) then (Resolved, b, w)
  else
    match sendBatch (config b) events w with
    | (Retry.Returned result, w1) =>
        (* Remove successfully sent events *)
        let successfulIds := accepted_ids result events in
        (Resolved, set_storage (MemoryQueueStorage.remove successfulIds) b, w1)
    | (Retry.Threw error, w1) =>
        let err := default (new_Error "undefined") error in
        if onError (config b) then
          let w2 := record_io (ErrorObserved err events) w1 in
          match error with
          | Some e =>
              (* If not retryable, remove events to prevent infinite loop *)
              if negb (Retry.isRetryableError e)
              then (Resolved,
                    set_storage (MemoryQueueStorage.remove (event_id <$> events)) b, w2)
              else (Resolved, b, w2)
          | None =>
              (* [isRetryableError(undefined)] reads a property of [undefined] *)
              (Rejected {| name := "TypeError";
                           message := "Cannot read properties of undefined";
                           code := None; http_status := None |}, b, w2)
          end
        else
          (* If no error handler, propagate the error *)
          (Rejected err, b, w1)
    end.

Definition processBatch (b : EventBatcher) (w : World)
    : Completion * EventBatcher * World :=
  let '(events, st) := MemoryQueueStorage.peek (batchSize (config b)) (storage b) in
  processBatch_of events (set_storage (fun _ => st) b) w.

(** A batcher with the flush calls that are suspended at an [await],
    each holding the batch it peeked, and the world around it. *)
Record System := {
  batcher : EventBatcher;
  suspended : list (list AgentEvent);
  world : World
}.

Definition with_batcher (b : EventBatcher) (s : System) : System :=
  {| batcher := b; suspended := suspended s; world := world s |}.

(** The part of [flush] that runs when it is called, up to the first
    [await]: the guard, the flag and the [peek] of [processBatch].
    [None] is the early [return]. *)
Definition flush_enter (b : EventBatcher) : option (EventBatcher * list AgentEvent) :=
  if isProcessing b || isStopped b then None
  else
    let b1 := set_isProcessing true b in
    let '(events, st) := MemoryQueueStorage.peek (batchSize (config b1)) (storage b1) in
    Some (set_storage (fun _ => st) b1, events).

(** The rest of [flush]: the rest of [processBatch], then [finally]. *)
Definition flush_leave (events : list AgentEvent) (b : EventBatcher) (w : World)
    : Completion * EventBatcher * World :=
  let '(r, b1, w1) := processBatch_of events b w in
  (r, set_isProcessing false b1, w1).

(** [await this.flush()]: the call runs to its end. *)
Definition flush (s : System) : Completion * System :=
  match flush_enter (batcher s) with
  | None => (Resolved, s)
  | Some (b1, events) =>
      let '(r, b2, w2) := flush_leave events b1 (world s) in
      (r, {| batcher := b2; suspended := suspended s; world := w2 |})
  end.

(** [this.flush()] without [await]: the call runs up to its first
    [await] and stays suspended there. *)
Definition flush_detached (s : System) : System :=
  match flush_enter (batcher s) with
  | None => s
  | Some (b1, events) =>
      {| batcher := b1; suspended := suspended s ++ [events]; world := world s |}
  end.

(** The oldest suspended [flush] runs to its end.  [sendBatch] reads and
    writes nothing of the batcher, so the calls that come in while the
    network is awaited are the calls made before this step; the queue is
    reconciled as it is when the step runs. *)
Definition resume (s : System) : Completion * System :=
  match suspended s with
  | [] => (Resolved, s)
  | events :: rest =>
      let '(r, b2, w2) := flush_leave events (batcher s) (world s) in
      (r, {| batcher := b2; suspended := rest; world := w2 |})
  end.

(** [add] returns the error it throws, if any.  Its [await]s are on the
    in-memory storage and the call of [flush] is not awaited: the whole of
    [add] is one step, and the flush it starts is left suspended. *)
Definition add (event : AgentEvent) (s : System) : option JsError * System :=
  if isStopped (batcher s)
  then (Some (new_Error "Batcher has been stopped"), s)
  else
    let s1 := with_batcher (set_storage (MemoryQueueStorage.push event) (batcher s)) s in
    (* Check if we should flush immediately *)
    let size := MemoryQueueStorage.size (storage (batcher s1)) in
    if size >=? batchSize (config (batcher s1))
    then (None, flush_detached s1)
    else (None, s1).

Definition stop (s : System) : Completion * System :=
  let b := batcher s in
  let b1 := {| config := config b; storage := storage b; flushTimer := None;
               isProcessing := isProcessing b; isStopped := true |} in
  (* Flush remaining events *)
  flush (with_batcher b1 s).

(** What can happen to a batcher, one step at a time. *)
Inductive Call :=
  | CallAdd (event : AgentEvent)
  | CallFlush                      (* an explicit [flush()] *)
  | TimerTick                      (* the callback of [startAutoFlush] *)
  | CallStop
  | Resume.                        (* a suspended [flush] goes on *)

Definition step (s : System) (c : Call) : System :=
  match c with
  | CallAdd event => (add event s).2
  | CallFlush => flush_detached s
  | TimerTick =>
      match flushTimer (batcher s) with
      | Some _ => flush_detached s
      | None => s
      end
  | CallStop => (stop s).2
  | Resume => (resume s).2
  end.

Definition run (calls : list Call) (s : System) : System := foldl step s calls.

(** A batcher as [new EventBatcher(config)] leaves it. *)
Definition start (cfg : BatcherConfig) (st : MemoryQueueStorage.t) (w : World) : System :=
  {| batcher := constructor cfg st; suspended := []; world := w |}.

End batcher.

End Batcher.

(** *** [client.ts] *)

Module Client.

Record IdentroConfig := {
  apiKey : string;
  endpoint : option string;
  baseUrl : option string;
  batchSize : option Z;         (* Max events per batch (default: 100) *)
  flushInterval : option Z;     (* Ms between flushes (default: 1000) *)
  maxRetries : option Z;        (* Max retry attempts (default: 3) *)
  retryDelay : option Z;        (* Initial retry delay in ms (default: 1000) *)
  throwOnError : option bool;
  debug : option bool;
  agentId : option string;
  framework : option string
}.

(** [Required<IdentroConfig>] *)
Record Config := {
  apiKey' : string;
  endpoint' : string;
  baseUrl' : string;
  batchSize' : Z;
  flushInterval' : Z;
  maxRetries' : Z;
  retryDelay' : Z;
  throwOnError' : bool;
  debug' : bool;
  agentId' : string;
  framework' : string
}.

(** [a || b] where [a] is an optional number: [undefined] and [0] are
    falsy. *)
Definition or_number (a : option Z) (b : Z) : Z :=
  match a with
  | Some v => if v =? 0 then b else v
  | None => b
  end.

(** [a || b] where [a] is an optional string: [undefined] and the empty
    string are falsy. *)
Definition or_string (a : option string) (b : string) : string :=
  match a with
  | Some v => if bool_decide (v = "") then b else v
  | None => b
  end.

(** [a || false] where [a] is an optional boolean. *)
Definition or_false (a : option bool) : bool := default false a.

Record IdentroClient := {
  config : Config;
  batcher : Batcher.EventBatcher
}.

(** [constructor(config)].  [generated] is the value of
    [this.generateAgentId()], which reads the clock and [Math.random]. *)
Definition constructor (config : IdentroConfig) (generated : string)
    : JsError + IdentroClient :=
  (* Validate required fields *)
  if bool_decide (apiKey config = "") then inl (new_Error "API key is required")
  else
    (* Set defaults *)
    let cfg :=
      {| apiKey' := apiKey config;
         endpoint' := or_string (endpoint config)
                        (or_string (baseUrl config) "https://api.identro.com");
         baseUrl' := or_string (baseUrl config)
                       (or_string (endpoint config) "https://api.identro.com");
         batchSize' := or_number (batchSize config) 100;
         flushInterval' := or_number (flushInterval config) 1000;
         maxRetries' := or_number (maxRetries config) 3;
         retryDelay' := or_number (retryDelay config) 1000;
         throwOnError' := or_false (throwOnError config);
         debug' := or_false (debug config);
         agentId' := or_string (agentId config) generated;
         framework' := or_string (framework config) "custom" |} in
    (* Create batcher *)
    inr {| config := cfg;
           batcher := Batcher.constructor
             {| Batcher.endpoint := endpoint' cfg;
                Batcher.apiKey := apiKey' cfg;
                Batcher.batchSize := batchSize' cfg;
                Batcher.flushInterval := flushInterval' cfg;
                Batcher.maxRetries := maxRetries' cfg;
                Batcher.retryDelay := retryDelay' cfg;
                Batcher.onError := negb (throwOnError' cfg) |}
             createQueueStorage |}.

End Client.

(** *** A scripted collector

    The network answers the successive [fetch] calls with the successive
    entries of a script; when the script is used up the connection is
    refused.  It serves to run the pipeline on concrete inputs. *)

Definition connection_refused : JsError :=
  {| name := "Error"; message := "connect ECONNREFUSED";
     code := Some "ECONNREFUSED"; http_status := None |}.

Definition http_response (st : Z) (text : string) (result : JsError + BatchResult)
    : JsError + Response :=
  inr {| ok := (200 <=? st) && (st <? 300); status_code := st;
         statusText := text; json := result |}.

(** The answer [200 OK] that accepts [n] events and rejects those named. *)
Definition accepting (n : Z) (rejects : list string) : JsError + Response :=
  http_response 200 "OK"
    (inr {| accepted := n; rejected := Z.of_nat (length rejects);
            errors := if bool_decide (rejects = []) then None
                      else Some ((fun id => (id, "rejected")) <$> rejects) |}).

Definition scripted_fetch (_ : Request) (script : list (JsError + Response))
    : (JsError + Response) * list (JsError + Response) :=
  match script with
  | [] => (inl connection_refused, [])
  | answer :: rest => (answer, rest)
  end.

Definition Scripted : Network :=
  {| Env := list (JsError + Response);
     fetch := scripted_fetch;
     randomUUID := fun script => ("00000000-0000-4000-8000-000000000000", script) |}.

(** A collector that gives the same answer to every call. *)
Definition Constant (answer : JsError + Response) : Network :=
  {| Env := unit;
     fetch := fun _ _ => (answer, ());
     randomUUID := fun _ => ("00000000-0000-4000-8000-000000000000", ()) |}.

Definition scripted_world (script : list (JsError + Response)) : @World Scripted :=
  @Build_World Scripted script [].

Definition constant_world (answer : JsError + Response) : @World (Constant answer) :=
  @Build_World (Constant answer) () [].

Definition sample_event (id : string) : AgentEvent :=
  {| event_id := id; agent_id := "agent"; task_id := "task-" +:+ id;
     framework := "custom"; status := success; latency_ms := 120 |}.

Definition sample_config (size retries : Z) (observer : bool) : Batcher.BatcherConfig :=
  {| Batcher.endpoint := "https://api.identro.com";
     Batcher.apiKey := "key";
     Batcher.batchSize := size;
     Batcher.flushInterval := 1000;
     Batcher.maxRetries := retries;
     Batcher.retryDelay := 1000;
     Batcher.onError := observer |}.

(** *** Vocabulary of the properties *)

Definition is_Invoked (ev : IOEvent) : bool :=
  match ev with Invoked _ => true | _ => false end.

Definition is_RetryHook (ev : IOEvent) : bool :=
  match ev with RetryHook _ _ => true | _ => false end.

(** How many times the operation was called. *)
Definition invocations (t : list IOEvent) : nat :=
  length (filter (fun ev => is_Invoked ev = true) t).

(** The delays waited, in order. *)
Definition waits (t : list IOEvent) : list Z :=
  omap (fun ev => match ev with Waited d => Some d | _ => None end) t.

(** The calls of the error observer, in order. *)
Definition observed (t : list IOEvent) : list (JsError * list AgentEvent) :=
  omap (fun ev => match ev with ErrorObserved e l => Some (e, l) | _ => None end) t.

(** The trace with the calls of the retry hook taken out. *)
Definition without_hooks (t : list IOEvent) : list IOEvent :=
  filter (fun ev => is_RetryHook ev = false) t.

(** Every wait comes right after a call of the retry hook. *)
Fixpoint hook_before_each_wait (t : list IOEvent) : bool :=
  match t with
  | [] => true
  | RetryHook _ _ :: Waited _ :: t' => hook_before_each_wait t'
  | Waited _ :: _ => false
  | _ :: t' => hook_before_each_wait t'
  end.

(** The same options without the [onRetry] hook. *)
Definition silent (options : Retry.RetryOptions) : Retry.RetryOptions :=
  {| Retry.maxRetries := Retry.maxRetries options;
     Retry.retryDelay := Retry.retryDelay options;
     Retry.maxDelay := Retry.maxDelay options;
     Retry.onRetry := false |}.

(** How [supplied || fallback] resolves a tunable to [value]: the fallback
    when nothing or zero is supplied, what is supplied otherwise. *)
Definition defaulted (supplied : option Z) (fallback value : Z) : Prop :=
  (supplied = None -> value = fallback)
  /\ (supplied = Some 0 -> value = fallback)
  /\ (forall v, supplied = Some v -> v <> 0 -> value = v).

(** A configuration that supplies only its key and the four tunables. *)
Definition tunables (size interval retries delay : option Z) : Client.IdentroConfig :=
  {| Client.apiKey := "key"; Client.endpoint := None; Client.baseUrl := None;
     Client.batchSize := size; Client.flushInterval := interval;
     Client.maxRetries := retries; Client.retryDelay := delay;
     Client.throwOnError := None; Client.debug := None;
     Client.agentId := None; Client.framework := None |}.

(** The result names the event in its list of rejections. *)
Definition names_rejected (result : BatchResult) (e : AgentEvent) : Prop :=
  Batcher.find_error result (event_id e) <> None.

#[global] Instance names_rejected_dec result e : Decision (names_rejected result e).
Proof. unfold names_rejected. apply _. Defined.

(** The result rejects no event. *)
Definition rejects_nothing (result : BatchResult) : Prop :=
  forall id, Batcher.find_error result id = None.

Section batcher_vocabulary.
Context `{Network}.

(** The events queued in a system, oldest first. *)
Definition queue_of (s : Batcher.System) : list AgentEvent :=
  Q.queue (Batcher.storage (Batcher.batcher s)).

(** The batch the next flush would peek. *)
Definition batch_of (s : Batcher.System) : list AgentEvent :=
  (Q.peek (Batcher.batchSize (Batcher.config (Batcher.batcher s)))
          (Batcher.storage (Batcher.batcher s))).1.

(** No flush is in progress and the batcher is not stopped. *)
Definition idle (s : Batcher.System) : Prop :=
  Batcher.isProcessing (Batcher.batcher s) = false
  /\ Batcher.isStopped (Batcher.batcher s) = false.

(** At most one flush is suspended, and the flag says whether one is. *)
Definition single_flight (s : Batcher.System) : Prop :=
  (length (Batcher.suspended s) <= 1)%nat
  /\ (Batcher.isProcessing (Batcher.batcher s) = true <-> Batcher.suspended s <> []).

End batcher_vocabulary.

Section retry_vocabulary.
Context `{Network} {T : Type}.
Variable fn : Env -> (JsError + T) * Env.
Variable options : Retry.RetryOptions.

(** [failures n e = Some (errs, e')]: called [n] times in a row from the
    environment [e], the operation fails each time, with the errors [errs],
    and leaves the environment [e']. *)
Fixpoint failures (n : nat) (e : Env) : option (list JsError * Env) :=
  match n with
  | O => Some ([], e)
  | S n' =>
      match fn e with
      | (inl error, e1) =>
          '(errs, e') ← failures n' e1; Some (error :: errs, e')
      | (inr _, _) => None
      end
  end.

(** What is to be seen of the attempts that failed with [errs] and were
    retried, the first of them being number [attempt]: the call, the hook
    when there is one, then the wait of
    [min (retryDelay * 2 ^ attempt) maxDelay]. *)
Fixpoint retried (attempt : Z) (errs : list JsError) : list IOEvent :=
  match errs with
  | [] => []
  | error :: errs' =>
      [Invoked attempt]
      ++ (if Retry.onRetry options then [RetryHook error (attempt + 1)] else [])
      ++ [Waited (Z.min (Retry.retryDelay options * 2 ^ attempt)
                        (default 30000 (Retry.maxDelay options)))]
      ++ retried (attempt + 1) errs'
  end.

End retry_vocabulary.


(** [shift], [n] times over: what each call returned, and the storage
    left. *)
Fixpoint shift_n (n : nat) (s : Q.t) : list (option AgentEvent) * Q.t :=
  match n with
  | O => ([], s)
  | S n' =>
      let '(first, s1) := Q.shift s in
      let '(others, s2) := shift_n n' s1 in
      (first :: others, s2)
  end.


(** How many times the retry hook was called. *)
Definition hook_calls (t : list IOEvent) : nat :=
  length (filter (fun ev => is_RetryHook ev = true) t).


(** *** [utils/logger.ts] *)

Module Loggers.

Inductive Level := Debug | Info | Warn | Error.

(** One call of a [console] method: the formatted text and the second
    argument. *)
Record Line := {
  level : Level;
  text : string;
  extra : string
}.

(** [data || ''] for an optional string. *)
Definition or_empty (data : option string) : string :=
  match data with
  | Some d => d
  | None => ""
  end.

(** The [Logger] interface of [types.ts]; the console is the list of the
    lines written, oldest first. *)
Class Logger (L : Type) := {
  debug : L -> string -> option string -> list Line -> list Line;
  info : L -> string -> option string -> list Line -> list Line;
  warn : L -> string -> option string -> list Line -> list Line;
  error : L -> string -> option string -> list Line -> list Line
}.

Record ConsoleLogger := {
  enabled : bool;
  prefix : string
}.

(** [constructor(enabled = false, prefix = '[Identro]')] *)
Definition new_ConsoleLogger (enabled : option bool) (prefix : option string)
    : ConsoleLogger :=
  {| enabled := default false enabled; prefix := default "[Identro]" prefix |}.

Definition write (lv : Level) (l : ConsoleLogger) (message : string)
    (data : option string) (console : list Line) : list Line :=
  console ++ [{| level := lv; text := prefix l +:+ " " +:+ message;
                 extra := or_empty data |}].

#[global] Instance console_logger : Logger ConsoleLogger := {|
  debug l message data console :=
    if negb (enabled l) then console else write Debug l message data console;
  info l message data console :=
    if negb (enabled l) then console else write Info l message data console;
  warn l message data console := write Warn l message data console;
  error l message data console := write Error l message data console
|}.

Inductive NoOpLogger := new_NoOpLogger.

#[global] Instance noop_logger : Logger NoOpLogger := {|
  debug _ _ _ console := console;
  info _ _ _ console := console;
  warn _ _ _ console := console;
  error _ _ _ console := console
|}.

(** A call of one of the four methods. *)
Record LogCall := {
  call_level : Level;
  call_message : string;
  call_data : option string
}.

Definition log `{Logger L} (l : L) (console : list Line) (c : LogCall) : list Line :=
  match call_level c with
  | Debug => debug l (call_message c) (call_data c) console
  | Info => info l (call_message c) (call_data c) console
  | Warn => warn l (call_message c) (call_data c) console
  | Error => error l (call_message c) (call_data c) console
  end.

Definition log_all `{Logger L} (l : L) (calls : list LogCall) (console : list Line)
    : list Line :=
  foldl (log l) console calls.

End Loggers.

(** *** [identity.ts] *)

Module Identity.

(** The libraries and the clock under [IdentityManager]: base64 decoding of
    [Buffer.from], [TextEncoder], [ed.sign] (which throws on a key it does
    not accept), [base58.encode], [Date.now()], and the
    [JSON.stringify]-then-base64 of the token of [createAuthHeader]. *)
Class Crypto := {
  Clock : Type;
  now : Clock -> Z * Clock;
  base64_decode : string -> list Byte.byte;
  utf8_encode : string -> list Byte.byte;
  ed_sign : list Byte.byte -> list Byte.byte -> JsError + list Byte.byte;
  base58_encode : list Byte.byte -> string;
  encode_token : string -> string -> Z -> string -> string
}.

Record IdentityConfig := {
  did : option string;
  privateKey : option string;    (* Base64 encoded *)
  autoSign : option bool
}.

Record SignedEvent := {
  signature : string;
  signer : string;               (* the [did] field *)
  timestamp : Z
}.

Record IdentityManager := {
  m_did : option string;
  m_privateKey : option (list Byte.byte);
  m_autoSign : bool
}.

Section manager.
Context `{Crypto}.

(** [constructor(config = {})]; [if (config.privateKey)] is false for the
    empty string. *)
Definition constructor (config : IdentityConfig) : IdentityManager :=
  {| m_did := did config;
     m_autoSign := default false (autoSign config);
     m_privateKey :=
       match privateKey config with
       | Some k => if bool_decide (k = "") then None else Some (base64_decode k)
       | None => None
       end |}.

Definition setIdentity (d : string) (k : string) (m : IdentityManager) : IdentityManager :=
  {| m_did := Some d; m_privateKey := Some (base64_decode k); m_autoSign := m_autoSign m |}.

(** [!!(this.did && this.privateKey)]: an empty string is falsy, a
    [Uint8Array] is truthy even when it is empty. *)
Definition hasIdentity (m : IdentityManager) : bool :=
  match m_did m, m_privateKey m with
  | Some d, Some _ => negb (bool_decide (d = ""))
  | _, _ => false
  end.

(** [signEvent]: [inr None] is the promise resolved with [null], [inl] the
    promise rejected by [ed.sign]. *)
Definition signEvent (eventId agentId : string) (m : IdentityManager) (c : Clock)
    : (JsError + option SignedEvent) * Clock :=
  if negb (hasIdentity m) || negb (m_autoSign m) then (inr None, c)
  else
    match m_did m, m_privateKey m with
    | Some d, Some key =>
        let '(t, c1) := now c in
        let message := eventId +:+ ":" +:+ agentId +:+ ":" +:+ pretty t in
        match ed_sign (utf8_encode message) key with
        | inl error => (inl error, c1)
        | inr sig =>
            (inr (Some {| signature := base58_encode sig; signer := d; timestamp := t |}), c1)
        end
    | _, _ => (inr None, c)      (* excluded by [hasIdentity] *)
    end.

(** [createAuthHeader]: the clock is read once for the message that is
    signed and once more for the token. *)
Definition createAuthHeader (nonce : string) (m : IdentityManager) (c : Clock)
    : (JsError + option string) * Clock :=
  if negb (hasIdentity m) then (inr None, c)
  else
    match m_did m, m_privateKey m with
    | Some d, Some key =>
        let '(t, c1) := now c in
        let message := d +:+ ":" +:+ nonce +:+ ":" +:+ pretty t in
        match ed_sign (utf8_encode message) key with
        | inl error => (inl error, c1)
        | inr sig =>
            let '(t', c2) := now c1 in
            (inr (Some ("DID " +:+ encode_token d nonce t' (base58_encode sig))), c2)
        end
    | _, _ => (inr None, c)
    end.

(** [setIdentity] calls, oldest first. *)
Definition setIdentity_all (calls : list (string * string)) (m : IdentityManager)
    : IdentityManager :=
  foldl (fun m c => setIdentity c.1 c.2 m) m calls.

End manager.

End Identity.

(** A stand-in for the libraries, to run the manager on concrete inputs:
    the clock counts, and a signature is the key followed by the message;
    a key of no byte is refused. *)
Definition PlainCrypto : Identity.Crypto :=
  {| Identity.Clock := Z;
     Identity.now := fun c => (c, c + 1);
     Identity.base64_decode := String.list_byte_of_string;
     Identity.utf8_encode := String.list_byte_of_string;
     Identity.ed_sign := fun msg key =>
       match key with
       | [] => inl (new_Error "invalid private key")
       | _ => inr (key ++ msg)
       end;
     Identity.base58_encode := String.string_of_list_byte;
     Identity.encode_token := fun d nonce t sig =>
       d +:+ "," +:+ nonce +:+ "," +:+ pretty t +:+ "," +:+ sig |}.


(** *** [client.ts]: the methods of [IdentroClient] *)

(** The fields of [RecordEventOptions] that reach the modelled fields of an
    event, and [fail_reason], which [recordFailure] sets. *)
Module RecordEventOptions.
Record t := {
  agent_id : option string;
  framework : option string;
  task_id : string;
  status : Status;
  latency_ms : Z;
  fail_reason : option string
}.
End RecordEventOptions.

Module SimpleRecordOptions.
Record t := {
  taskId : option string;
  responseTime : option Z
}.
End SimpleRecordOptions.

Module Facade.

(** The three ways [recordSuccess] can be called. *)
Inductive SuccessArgs :=
  | Legacy (taskId : string) (latencyMs : Z)
  | Enhanced (options : RecordEventOptions.t)
  | Simple (taskId : string) (options : SimpleRecordOptions.t).

(** The object [recordSuccess] hands to [recordEvent]. *)
Definition recordSuccess_options (args : SuccessArgs) : RecordEventOptions.t :=
  match args with
  | Legacy taskId latencyMs =>
      (* Legacy method signature *)
      {| RecordEventOptions.task_id := taskId;
         RecordEventOptions.status := success;
         RecordEventOptions.latency_ms := latencyMs;
         RecordEventOptions.agent_id := None;
         RecordEventOptions.framework := None;
         RecordEventOptions.fail_reason := None |}
  | Simple taskId options =>
      (* Simple method signature *)
      {| RecordEventOptions.task_id :=
           Client.or_string (SimpleRecordOptions.taskId options) taskId;
         RecordEventOptions.status := success;
         RecordEventOptions.latency_ms :=
           Client.or_number (SimpleRecordOptions.responseTime options) 100;
         RecordEventOptions.agent_id := None;
         RecordEventOptions.framework := None;
         RecordEventOptions.fail_reason := None |}
  | Enhanced options =>
      (* Enhanced method signature: [{...options, status: 'success'}] *)
      {| RecordEventOptions.task_id := RecordEventOptions.task_id options;
         RecordEventOptions.status := success;
         RecordEventOptions.latency_ms := RecordEventOptions.latency_ms options;
         RecordEventOptions.agent_id := RecordEventOptions.agent_id options;
         RecordEventOptions.framework := RecordEventOptions.framework options;
         RecordEventOptions.fail_reason := RecordEventOptions.fail_reason options |}
  end.

(** The second argument of [recordFailure], as it is at run time. *)
Inductive SecondArg :=
  | Absent
  | Number (n : Z)
  | Options (options : RecordEventOptions.t).

(** The object [recordFailure] hands to [recordEvent]; its [status] is
    ['fail'] in both branches.  [latency_ms] holds whatever the second
    argument was: [as number] does nothing at run time. *)
Record FailureOptions := {
  f_task_id : option string;
  f_latency_ms : SecondArg;
  f_fail_reason : option string
}.

(** [recordFailure(taskIdOrFailReason, latencyMsOrOptions, failReason)]:
    the first argument is a string (a task id, or a fail reason, which is a
    string too) or [undefined]. *)
Definition recordFailure_options (taskIdOrFailReason : option string)
    (latencyMsOrOptions : SecondArg) (failReason : option string) : FailureOptions :=
  match taskIdOrFailReason with
  | Some taskId =>
      (* Legacy method signature: [typeof taskIdOrFailReason === 'string'] *)
      {| f_task_id := Some taskId;
         f_latency_ms := latencyMsOrOptions;
         f_fail_reason := failReason |}
  | None =>
      (* Enhanced method signature:
         [{...options, status: 'fail', fail_reason: taskIdOrFailReason}] *)
      match latencyMsOrOptions with
      | Options options =>
          {| f_task_id := Some (RecordEventOptions.task_id options);
             f_latency_ms := Number (RecordEventOptions.latency_ms options);
             f_fail_reason := None |}
      | _ => {| f_task_id := None; f_latency_ms := Absent; f_fail_reason := None |}
      end
  end.

(** What [updateConfig] is given: the keys that are present. *)
Record ConfigUpdates := {
  u_apiKey : option string;
  u_endpoint : option string;
  u_baseUrl : option string;
  u_batchSize : option Z;
  u_flushInterval : option Z;
  u_maxRetries : option Z;
  u_retryDelay : option Z;
  u_throwOnError : option bool;
  u_debug : option bool;
  u_agentId : option string;
  u_framework : option string
}.

Section facade.
Context `{Network}.

(** A client: its configuration, and its batcher in the world. *)
Record ClientState := {
  config : Client.Config;
  system : Batcher.System
}.

(** The client that [new IdentroClient(config)] built, put in a world. *)
Definition attach (client : Client.IdentroClient) (w : World) : ClientState :=
  {| config := Client.config client;
     system := {| Batcher.batcher := Client.batcher client;
                  Batcher.suspended := [];
                  Batcher.world := w |} |}.

(** [recordEvent]: the event gets a fresh identifier; an error of [add] is
    logged, and thrown again only with [throwOnError]. *)
Definition recordEvent (options : RecordEventOptions.t) (st : ClientState)
    : option JsError * ClientState :=
  let sys := system st in
  let '(uuid, env1) := randomUUID (env (Batcher.world sys)) in
  let event :=
    {| event_id := uuid;
       agent_id := Client.or_string (RecordEventOptions.agent_id options)
                     (Client.agentId' (config st));
       task_id := RecordEventOptions.task_id options;
       framework := Client.or_string (RecordEventOptions.framework options)
                      (Client.framework' (config st));
       status := RecordEventOptions.status options;
       latency_ms := RecordEventOptions.latency_ms options |} in
  let sys1 := {| Batcher.batcher := Batcher.batcher sys;
                 Batcher.suspended := Batcher.suspended sys;
                 Batcher.world := {| env := env1; trace := trace (Batcher.world sys) |} |} in
  let '(thrown, sys2) := Batcher.add event sys1 in
  let st2 := {| config := config st; system := sys2 |} in
  match thrown with
  | None => (None, st2)
  | Some error =>
      if Client.throwOnError' (config st) then (Some error, st2) else (None, st2)
  end.

Definition recordSuccess (args : SuccessArgs) (st : ClientState)
    : option JsError * ClientState :=
  recordEvent (recordSuccess_options args) st.

(** [flush] and [shutdown] hand over to the batcher. *)
Definition flush (st : ClientState) : Completion * ClientState :=
  let '(r, sys) := Batcher.flush (system st) in
  (r, {| config := config st; system := sys |}).

Definition shutdown (st : ClientState) : Completion * ClientState :=
  let '(r, sys) := Batcher.stop (system st) in
  (r, {| config := config st; system := sys |}).

Definition getAgentId (st : ClientState) : string := Client.agentId' (config st).

(** [Object.assign(this.config, updates)]: the keys present overwrite the
    configuration of the client; nothing else is touched. *)
Definition updateConfig (updates : ConfigUpdates) (st : ClientState) : ClientState :=
  let c := config st in
  {| config :=
       {| Client.apiKey' := default (Client.apiKey' c) (u_apiKey updates);
          Client.endpoint' := default (Client.endpoint' c) (u_endpoint updates);
          Client.baseUrl' := default (Client.baseUrl' c) (u_baseUrl updates);
          Client.batchSize' := default (Client.batchSize' c) (u_batchSize updates);
          Client.flushInterval' := default (Client.flushInterval' c) (u_flushInterval updates);
          Client.maxRetries' := default (Client.maxRetries' c) (u_maxRetries updates);
          Client.retryDelay' := default (Client.retryDelay' c) (u_retryDelay updates);
          Client.throwOnError' := default (Client.throwOnError' c) (u_throwOnError updates);
          Client.debug' := default (Client.debug' c) (u_debug updates);
          Client.agentId' := default (Client.agentId' c) (u_agentId updates);
          Client.framework' := default (Client.framework' c) (u_framework updates) |};
     system := system st |}.

End facade.

End Facade.

(** A configuration that supplies its key, [throwOnError] and nothing
    else. *)
Definition plain_config (strict : option bool) : Client.IdentroConfig :=
  {| Client.apiKey := "key"; Client.endpoint := None; Client.baseUrl := None;
     Client.batchSize := None; Client.flushInterval := None;
     Client.maxRetries := None; Client.retryDelay := None;
     Client.throwOnError := strict; Client.debug := None;
     Client.agentId := None; Client.framework := None |}.

Definition no_updates : Facade.ConfigUpdates :=
  {| Facade.u_apiKey := None; Facade.u_endpoint := None; Facade.u_baseUrl := None;
     Facade.u_batchSize := None; Facade.u_flushInterval := None;
     Facade.u_maxRetries := None; Facade.u_retryDelay := None;
     Facade.u_throwOnError := None; Facade.u_debug := None;
     Facade.u_agentId := None; Facade.u_framework := None |}.


(** The line a [ConsoleLogger] writes for a call, and the levels it writes
    whether it is enabled or not. *)
Definition line_of (l : Loggers.ConsoleLogger) (c : Loggers.LogCall) : Loggers.Line :=
  {| Loggers.level := Loggers.call_level c;
     Loggers.text := Loggers.prefix l +:+ " " +:+ Loggers.call_message c;
     Loggers.extra := Loggers.or_empty (Loggers.call_data c) |}.

Definition always_written (lv : Loggers.Level) : bool :=
  match lv with
  | Loggers.Warn | Loggers.Error => true
  | _ => false
  end.

(** ** Part II: properties *)

(** *** The event queue *)

Section queue_properties.

Implicit Types (s : Q.t) (e : AgentEvent) (l : list AgentEvent).

Lemma push_all_snoc l e s : Q.push_all (l ++ [e]) s = Q.push e (Q.push_all l s).
Proof. unfold Q.push_all. by rewrite foldl_app. Qed.

Lemma push_all_maxSize l s : Q.maxSize (Q.push_all l s) = Q.maxSize s.
Proof.
  induction l as [|e l IH] using rev_ind; [done|].
  by rewrite push_all_snoc.
Qed.

(** A push on a full queue evicts the oldest event, then appends. *)
Lemma push_full e s :
  0 < Q.maxSize s -> Q.size s = Q.maxSize s ->
  Q.queue (Q.push e s) = drop 1 (Q.queue s) ++ [e].
Proof.
  unfold Q.size, Q.push, Q.array_shift. intros Hpos Hfull. cbn.
  destruct (Z.geb_spec (Z.of_nat (length (Q.queue s))) (Q.maxSize s)); [done | lia].
Qed.

(** One push on a queue within a positive capacity keeps the newest
    [maxSize] events of the old queue followed by the new event. *)
Lemma push_queue e s :
  0 < Q.maxSize s -> Q.size s <= Q.maxSize s ->
  Q.queue (Q.push e s) =
    drop (length (Q.queue s ++ [e]) - Z.to_nat (Q.maxSize s)) (Q.queue s ++ [e]).
Proof.
  unfold Q.size, Q.push, Q.array_shift. intros Hpos Hle. cbn.
  rewrite length_app. cbn.
  destruct (Z.geb_spec (Z.of_nat (length (Q.queue s))) (Q.maxSize s)) as [Hge|Hlt].
  - replace (length (Q.queue s) + 1 - Z.to_nat (Q.maxSize s))%nat with 1%nat by lia.
    destruct (Q.queue s) as [|x q]; [cbn in *; lia | done].
  - by replace (length (Q.queue s) + 1 - Z.to_nat (Q.maxSize s))%nat with 0%nat by lia.
Qed.

Lemma push_all_queue l s :
  0 < Q.maxSize s -> Q.size s <= Q.maxSize s ->
  Q.queue (Q.push_all l s) =
    drop (length (Q.queue s ++ l) - Z.to_nat (Q.maxSize s)) (Q.queue s ++ l).
Proof.
  intros Hpos Hle. induction l as [|e l IH] using rev_ind.
  - cbn. rewrite app_nil_r. unfold Q.size in Hle.
    by replace (length (Q.queue s) - Z.to_nat (Q.maxSize s))%nat with 0%nat by lia.
  - rewrite push_all_snoc.
    assert (Hsz : Q.size (Q.push_all l s) <= Q.maxSize s).
    { unfold Q.size. rewrite IH, length_drop. lia. }
    rewrite push_queue, push_all_maxSize by (by rewrite push_all_maxSize).
    rewrite IH. set (L := Q.queue s ++ l).
    rewrite (assoc_L (++) (Q.queue s) l [e]). fold L.
    rewrite !length_app, length_drop. cbn [length].
    destruct (decide (length L <= Z.to_nat (Q.maxSize s))%nat) as [Hn|Hn].
    + replace (length L - Z.to_nat (Q.maxSize s))%nat with 0%nat by lia.
      rewrite drop_0. f_equal. lia.
    + rewrite <- drop_app_le by lia. rewrite drop_drop. f_equal. lia.
Qed.

(** C2.  On a queue whose capacity is positive and that is within it (as
    a new queue is), every run of pushes leaves the size within the
    capacity and leaves the newest events, in insertion order, as many as
    the capacity holds; a push on a full queue evicts the oldest event and
    then appends; and pushing capacity + k events on an empty queue leaves
    exactly the last capacity of them. *)
Theorem push_capacity_invariant s l :
  0 < Q.maxSize s -> Q.size s <= Q.maxSize s ->
  Q.size (Q.push_all l s) <= Q.maxSize s
  /\ Q.queue (Q.push_all l s) =
       drop (length (Q.queue s ++ l) - Z.to_nat (Q.maxSize s)) (Q.queue s ++ l)
  /\ (forall e, Q.size s = Q.maxSize s ->
        Q.queue (Q.push e s) = drop 1 (Q.queue s) ++ [e])
  /\ (forall k, Q.queue s = [] -> length l = (Z.to_nat (Q.maxSize s) + k)%nat ->
        Q.queue (Q.push_all l s) = drop k l
        /\ Q.size (Q.push_all l s) = Q.maxSize s).
Proof.
  intros Hpos Hle. pose proof (push_all_queue l s Hpos Hle) as Hq.
  split_and!.
  - unfold Q.size. rewrite Hq, length_drop. lia.
  - done.
  - intros e Hfull. by apply push_full.
  - intros k Hempty Hlen. rewrite Hempty in Hq. cbn [app] in Hq.
    assert (Hd : Q.queue (Q.push_all l s) = drop k l).
    { rewrite Hq. f_equal. lia. }
    split; [done|]. unfold Q.size. rewrite Hd, length_drop. lia.
Qed.

Lemma push_capacity_invariant_witness :
  let s := Q.constructor (Some 2) in
  let l := [sample_event "a"; sample_event "b"; sample_event "c"] in
  Q.size (Q.push_all l s) <= 2
  /\ Q.queue (Q.push_all l s) = [sample_event "b"; sample_event "c"].
Proof.
  intros s l.
  destruct (push_capacity_invariant s l) as (Hsize & Hqueue & _);
    [reflexivity | vm_compute; discriminate |].
  split; [exact Hsize | exact Hqueue].
Defined.

(** The bound needs a positive capacity: with capacity [0] the guard of
    [push] shifts an empty array and the event is appended all the same. *)
Remark push_capacity_zero e :
  Q.size (Q.push e (Q.constructor (Some 0))) = 1.
Proof. reflexivity. Qed.

Lemma array_slice0_nonneg {A} (n : Z) (l : list A) :
  0 <= n -> Q.array_slice0 n l = take (Z.to_nat n) l.
Proof.
  intros Hn. unfold Q.array_slice0.
  destruct (Z.ltb_spec n 0); [lia|].
  destruct (decide (n <= Z.of_nat (length l))).
  - by rewrite Z.min_l.
  - rewrite Z.min_r, Nat2Z.id by lia. rewrite !take_ge; [done | lia | lia].
Qed.

(** C9.  [peek] leaves the storage as it found it, so a second [peek] with
    the same count returns the same events; what it returns is a prefix of
    the queue, oldest first, and for a count [n >= 0] it is the first [n]
    events, or all of them when there are fewer. *)
Theorem peek_repeatable (n : Z) s :
  (Q.peek n s).2 = s
  /\ (Q.peek n (Q.peek n s).2).1 = (Q.peek n s).1
  /\ (Q.peek n s).1 `prefix_of` Q.queue s
  /\ (0 <= n ->
        (Q.peek n s).1 = take (Z.to_nat n) (Q.queue s)
        /\ Z.of_nat (length (Q.peek n s).1) = Z.min n (Q.size s)).
Proof.
  split_and!; [done | done | apply prefix_take |].
  intros Hn. cbn. rewrite array_slice0_nonneg by done.
  split; [done|]. rewrite length_take. unfold Q.size. lia.
Qed.

Lemma peek_repeatable_witness :
  let s := Q.push_all [sample_event "a"; sample_event "b"; sample_event "c"]
             (Q.constructor None) in
  (Q.peek 2 s).1 = [sample_event "a"; sample_event "b"] /\ (Q.peek 2 s).2 = s.
Proof.
  intros s. destruct (peek_repeatable 2 s) as (Hsame & _ & _ & Hfirst).
  destruct Hfirst as [Htake _]; [lia|].
  split; [rewrite Htake; reflexivity | exact Hsame].
Defined.

End queue_properties.

(** *** The retry executor *)

Section retry_properties.

Context `{Network} {T : Type}.
Implicit Types (fn : Env -> (JsError + T) * Env) (options : Retry.RetryOptions).
Implicit Types (w : World) (errs : list JsError).

(** As long as attempts remain after them, [n] failures in a row are each
    followed by the hook and the wait, and the loop goes on with attempt
    number [attempt + n]. *)
Lemma attempts_retried fn options n :
  forall remaining attempt lastError w errs e_n,
    failures fn n (env w) = Some (errs, e_n) ->
    (n < remaining)%nat ->
    Z.of_nat remaining = Retry.maxRetries options + 1 - attempt ->
    exists lastError',
      Retry.attempts fn options remaining attempt lastError w =
      Retry.attempts fn options (remaining - n) (attempt + Z.of_nat n) lastError'
        {| env := e_n; trace := trace w ++ retried options attempt errs |}.
Proof.
  induction n as [|n IH]; intros remaining attempt lastError w errs e_n Hf Hlt Hrem.
  - cbn in Hf. simplify_eq. exists lastError. cbn [retried].
    rewrite app_nil_r, Nat.sub_0_r, Z.add_0_r. by destruct w.
  - cbn in Hf. destruct (fn (env w)) as [[error|v] e1] eqn:Hfn; [|done].
    destruct (failures fn n e1) as [[errs' e']|] eqn:Hrec; [|done].
    cbn in Hf. simplify_eq.
    destruct remaining as [|remaining]; [lia|].
    cbn [Retry.attempts]. rewrite Hfn.
    destruct (Z.eqb_spec attempt (Retry.maxRetries options)); [lia|].
    set (w3 := record_io _ _).
    destruct (IH remaining (attempt + 1) (Some error) w3 errs' e_n) as [le' Heq].
    { subst w3. by destruct (Retry.onRetry options). }
    { lia. }
    { lia. }
    exists le'. rewrite Heq.
    replace (attempt + 1 + Z.of_nat n) with (attempt + Z.of_nat (S n)) by lia.
    replace (S remaining - S n)%nat with (remaining - n)%nat by lia.
    do 2 f_equal. subst w3. cbn [retried].
    unfold Retry.backoff, Retry.maxDelay_or_default.
    destruct (Retry.onRetry options); cbn; by rewrite <- !(assoc_L (++)).
Qed.

(** The call after [n] retried failures decides: a value is returned, or,
    when no attempt remains, the error of this last call is thrown. *)
Lemma withRetry_after_failures fn options w n errs e_n :
  0 <= Retry.maxRetries options ->
  (n <= Z.to_nat (Retry.maxRetries options))%nat ->
  failures fn n (env w) = Some (errs, e_n) ->
  match fn e_n with
  | (inr v, e') =>
      Retry.withRetry fn options w =
        (Retry.Returned v,
         {| env := e'; trace := trace w ++ retried options 0 errs ++ [Invoked (Z.of_nat n)] |})
  | (inl e, e') =>
      n = Z.to_nat (Retry.maxRetries options) ->
      Retry.withRetry fn options w =
        (Retry.Threw (Some e),
         {| env := e'; trace := trace w ++ retried options 0 errs ++ [Invoked (Z.of_nat n)] |})
  end.
Proof.
  intros Hm Hn Hf. unfold Retry.withRetry.
  destruct (attempts_retried fn options n
              (Z.to_nat (Retry.maxRetries options + 1)) 0 None w errs e_n)
    as [le Heq]; [done | lia | lia |].
  rewrite Heq. clear Heq.
  destruct (Z.to_nat (Retry.maxRetries options + 1) - n)%nat as [|k] eqn:Hk; [lia|].
  cbn [Retry.attempts env trace]. rewrite Z.add_0_l.
  destruct (fn e_n) as [[e|v] e'].
  - intros ->. destruct (Z.eqb_spec (Z.of_nat (Z.to_nat (Retry.maxRetries options)))
                           (Retry.maxRetries options)); [|lia].
    by rewrite <- (assoc_L (++)).
  - by rewrite <- (assoc_L (++)).
Qed.

Lemma failures_length fn n : forall e errs e_n,
  failures fn n e = Some (errs, e_n) -> length errs = n.
Proof.
  induction n as [|n IH]; intros e errs e_n Hf; cbn in Hf; [by simplify_eq|].
  destruct (fn e) as [[error|v] e1]; [|done].
  destruct (failures fn n e1) as [[errs' e']|] eqn:Hrec; [|done].
  cbn in Hf. simplify_eq. cbn. f_equal. eauto.
Qed.

Lemma failures_total fn :
  (forall e, exists err e', fn e = (inl err, e')) ->
  forall n e, exists errs e_n, failures fn n e = Some (errs, e_n).
Proof.
  intros Hfail. induction n as [|n IH]; intros e; [by eexists _, _|].
  destruct (Hfail e) as (err & e1 & Hfn). destruct (IH e1) as (errs & e_n & Hrec).
  exists (err :: errs), e_n. cbn. by rewrite Hfn, Hrec.
Qed.

Lemma waits_app t1 t2 : waits (t1 ++ t2) = waits t1 ++ waits t2.
Proof. apply omap_app. Qed.

Lemma waits_retried options errs : forall attempt,
  waits (retried options attempt errs) =
    (fun a => Z.min (Retry.retryDelay options * 2 ^ a)
                    (default 30000 (Retry.maxDelay options)))
      <$> seqZ attempt (Z.of_nat (length errs)).
Proof.
  induction errs as [|e errs IH]; intros attempt; [done|].
  cbn [retried length]. rewrite seqZ_cons by lia.
  replace (Z.pred (Z.of_nat (S (length errs)))) with (Z.of_nat (length errs)) by lia.
  rewrite fmap_cons, <- IH.
  destruct (Retry.onRetry options); reflexivity.
Qed.

Lemma invocations_app t1 t2 : invocations (t1 ++ t2) = (invocations t1 + invocations t2)%nat.
Proof. unfold invocations. by rewrite filter_app, length_app. Qed.

Lemma invocations_retried options errs : forall attempt,
  invocations (retried options attempt errs) = length errs.
Proof.
  induction errs as [|e errs IH]; intros attempt; [done|].
  cbn [retried length]. rewrite !invocations_app, IH.
  by destruct (Retry.onRetry options).
Qed.

Lemma hook_before_each_wait_retried options errs t :
  Retry.onRetry options = true ->
  hook_before_each_wait t = true ->
  forall attempt, hook_before_each_wait (retried options attempt errs ++ t) = true.
Proof.
  intros Hhook Ht. induction errs as [|e errs IH]; intros attempt; [done|].
  cbn [retried]. rewrite Hhook. cbn. apply IH.
Qed.

Lemma without_hooks_app t1 t2 :
  without_hooks (t1 ++ t2) = without_hooks t1 ++ without_hooks t2.
Proof. apply filter_app. Qed.

(** The hook is only called: with or without it the loop makes the same
    calls and the same waits and ends the same way. *)
Lemma attempts_hook_irrelevant fn options remaining :
  forall attempt lastError w w0,
    env w = env w0 ->
    exists t,
      trace (Retry.attempts fn options remaining attempt lastError w).2 = trace w ++ t
      /\ Retry.attempts fn (silent options) remaining attempt lastError w0 =
           ((Retry.attempts fn options remaining attempt lastError w).1,
            {| env := env (Retry.attempts fn options remaining attempt lastError w).2;
               trace := trace w0 ++ without_hooks t |}).
Proof.
  induction remaining as [|remaining IH]; intros attempt lastError w w0 Henv.
  - exists []. cbn. rewrite !app_nil_r, Henv. by destruct w0.
  - cbn [Retry.attempts]. rewrite <- Henv.
    destruct (fn (env w)) as [[error|v] e1].
    + change (Retry.maxRetries (silent options)) with (Retry.maxRetries options).
      destruct (attempt =? Retry.maxRetries options).
      { by exists [Invoked attempt]. }
      set (w3 := record_io (Waited _) _).
      set (w3' := record_io (Waited _) _).
      destruct (IH (attempt + 1) (Some error) w3 w3') as (t & Ht & Heq).
      { subst w3 w3'. by destruct (Retry.onRetry options). }
      rewrite Heq, Ht. clear Heq Ht.
      exists ([Invoked attempt]
              ++ (if Retry.onRetry options then [RetryHook error (attempt + 1)] else [])
              ++ [Waited (Retry.backoff (Retry.retryDelay options)
                            (Retry.maxDelay_or_default options) attempt)]
              ++ t).
      subst w3 w3'. rewrite !without_hooks_app.
      destruct (Retry.onRetry options); cbn; by rewrite <- !(assoc_L (++)).
    + by exists [Invoked attempt].
Qed.

Lemma backoff_default_capped attempt :
  5 <= attempt -> Retry.backoff 1000 30000 attempt = 30000.
Proof.
  intros Ha. unfold Retry.backoff.
  pose proof (Z.pow_le_mono_r 2 5 attempt ltac:(lia) Ha) as Hpow.
  change (2 ^ 5) with 32 in Hpow. lia.
Qed.

(** C5.  When the first [n] calls of the operation fail and retries remain,
    each failure is followed by the [onRetry] hook (when one is given) with
    the error and the number of the attempt, then by a wait of
    [min (retryDelay * 2 ^ attempt) maxDelay], [attempt] counting from 0;
    the next call decides the outcome: its value is returned, or, when it
    was the last attempt allowed, its error is thrown.  Without the hook
    the calls, the waits and the outcome are the same.  With a delay of
    1000 and the default cap of 30000 the waits before attempts 2 to 5 are
    1000, 2000, 4000 and 8000, and from the sixth retry on the cap; no wait
    is ever longer than the cap. *)
Theorem withRetry_backoff_schedule fn options w n errs e_n :
  0 <= Retry.maxRetries options ->
  (n <= Z.to_nat (Retry.maxRetries options))%nat ->
  failures fn n (env w) = Some (errs, e_n) ->
  let t := retried options 0 errs ++ [Invoked (Z.of_nat n)] in
  match fn e_n with
  | (inr v, e') =>
      Retry.withRetry fn options w
        = (Retry.Returned v, {| env := e'; trace := trace w ++ t |})
  | (inl e, e') =>
      n = Z.to_nat (Retry.maxRetries options) ->
      Retry.withRetry fn options w
        = (Retry.Threw (Some e), {| env := e'; trace := trace w ++ t |})
  end
  /\ waits t =
       (fun attempt => Z.min (Retry.retryDelay options * 2 ^ attempt)
                             (default 30000 (Retry.maxDelay options)))
         <$> seqZ 0 (Z.of_nat n)
  /\ (Retry.onRetry options = true -> hook_before_each_wait t = true)
  /\ (exists t',
        trace (Retry.withRetry fn options w).2 = trace w ++ t'
        /\ Retry.withRetry fn (silent options) w =
             ((Retry.withRetry fn options w).1,
              {| env := env (Retry.withRetry fn options w).2;
                 trace := trace w ++ without_hooks t' |}))
  /\ Retry.backoff 1000 30000 <$> [0; 1; 2; 3] = [1000; 2000; 4000; 8000]
  /\ (forall attempt, 5 <= attempt -> Retry.backoff 1000 30000 attempt = 30000)
  /\ (forall attempt,
        Retry.backoff (Retry.retryDelay options) (Retry.maxDelay_or_default options) attempt
        <= Retry.maxDelay_or_default options).
Proof.
  intros Hm Hn Hf t. split_and!.
  - pose proof (withRetry_after_failures fn options w n errs e_n Hm Hn Hf) as Hrun.
    by destruct (fn e_n) as [[e|v] e'].
  - subst t. rewrite waits_app, waits_retried, (failures_length _ _ _ _ _ Hf).
    cbn. by rewrite app_nil_r.
  - intros Hhook. by apply hook_before_each_wait_retried.
  - by apply attempts_hook_irrelevant.
  - reflexivity.
  - apply backoff_default_capped.
  - intros attempt. apply Z.le_min_r.
Qed.

Lemma observed_app t1 t2 : observed (t1 ++ t2) = observed t1 ++ observed t2.
Proof. apply omap_app. Qed.

(** Whatever the loop does, it never calls the error observer; and when it
    ends by a throw it has used every attempt that remained. *)
Lemma attempts_trace fn options remaining :
  forall attempt lastError w,
    exists t,
      trace (Retry.attempts fn options remaining attempt lastError w).2 = trace w ++ t
      /\ observed t = []
      /\ (forall x, Z.of_nat remaining = Retry.maxRetries options + 1 - attempt ->
            (Retry.attempts fn options remaining attempt lastError w).1 = Retry.Threw x ->
            invocations t = remaining).
Proof.
  induction remaining as [|remaining IH]; intros attempt lastError w.
  - exists []. cbn. by rewrite app_nil_r.
  - cbn [Retry.attempts]. destruct (fn (env w)) as [[error|v] e1].
    + destruct (Z.eqb_spec attempt (Retry.maxRetries options)) as [Heq|Hne].
      * exists [Invoked attempt]. split_and!; [done | done |].
        intros x Hrem _. change (invocations [Invoked attempt]) with 1%nat. lia.
      * set (w3 := record_io (Waited _) _).
        destruct (IH (attempt + 1) (Some error) w3) as (t & Ht & Hobs & Hinv).
        exists ([Invoked attempt]
                ++ (if Retry.onRetry options then [RetryHook error (attempt + 1)] else [])
                ++ [Waited (Retry.backoff (Retry.retryDelay options)
                              (Retry.maxDelay_or_default options) attempt)]
                ++ t).
        split_and!.
        -- rewrite Ht. subst w3.
           destruct (Retry.onRetry options); cbn; by rewrite <- !(assoc_L (++)).
        -- rewrite !observed_app, Hobs. by destruct (Retry.onRetry options).
        -- intros x Hrem Hthrew. rewrite !invocations_app, (Hinv x) by (done || lia).
           by destruct (Retry.onRetry options).
    + exists [Invoked attempt]. split_and!; [done | done | done].
Qed.


(** C10.  When every call of the operation fails and [maxRetries = m] is
    not negative, [withRetry] calls the operation [m + 1] times and then
    throws the error of the last of these calls. *)
Theorem withRetry_always_failing fn options w :
  0 <= Retry.maxRetries options ->
  (forall e, exists err e', fn e = (inl err, e')) ->
  exists errs e_m err e' t,
    failures fn (Z.to_nat (Retry.maxRetries options)) (env w) = Some (errs, e_m)
    /\ fn e_m = (inl err, e')
    /\ Retry.withRetry fn options w
         = (Retry.Threw (Some err), {| env := e'; trace := trace w ++ t |})
    /\ Z.of_nat (invocations t) = Retry.maxRetries options + 1.
Proof.
  intros Hm Hfail.
  destruct (failures_total fn Hfail (Z.to_nat (Retry.maxRetries options)) (env w))
    as (errs & e_m & Hf).
  destruct (Hfail e_m) as (err & e' & Hlast).
  pose proof (withRetry_after_failures fn options w _ errs e_m Hm (Nat.le_refl _) Hf) as Hrun.
  rewrite Hlast in Hrun.
  exists errs, e_m, err, e', (retried options 0 errs ++ [Invoked (Z.of_nat (Z.to_nat (Retry.maxRetries options)))]).
  split_and!; [done | done | by apply Hrun |].
  rewrite invocations_app, invocations_retried, (failures_length _ _ _ _ _ Hf).
  change (invocations [Invoked _]) with 1%nat. lia.
Qed.

End retry_properties.

Lemma withRetry_backoff_schedule_witness :
  let options := {| Retry.maxRetries := 5; Retry.retryDelay := 1000;
                    Retry.maxDelay := None; Retry.onRetry := true |} in
  let fn := Batcher.post_events (H := Scripted) (sample_config 100 5 true)
              [sample_event "a"] "batch" in
  let busy := http_response 503 "Service Unavailable" (inl (new_Error "no body")) in
  let w := scripted_world [busy; busy; busy; busy; accepting 1 []] in
  waits (trace (Retry.withRetry fn options w).2) = [1000; 2000; 4000; 8000].
Proof.
  intros options fn busy w.
  edestruct (withRetry_backoff_schedule fn options w 4) as (Hrun & Hwaits & _).
  - vm_compute. discriminate.
  - vm_compute. lia.
  - reflexivity.
  - cbn in Hrun. rewrite Hrun. exact Hwaits.
Defined.

Lemma withRetry_always_failing_witness :
  let options := {| Retry.maxRetries := 3; Retry.retryDelay := 1000;
                    Retry.maxDelay := None; Retry.onRetry := false |} in
  let answer := http_response 500 "Internal Server Error" (inl (new_Error "no body")) in
  let fn := Batcher.post_events (H := Constant answer) (sample_config 100 3 true)
              [sample_event "a"] "batch" in
  exists t, Retry.withRetry fn options (constant_world answer)
              = (Retry.Threw (Some (Batcher.http_error 500 "Internal Server Error")),
                 @Build_World (Constant answer) () t)
            /\ invocations t = 4%nat.
Proof.
  intros options answer fn.
  destruct (withRetry_always_failing fn options (constant_world answer))
    as (errs & e_m & err & e' & t & _ & Hlast & Hrun & Hcount).
  - vm_compute. discriminate.
  - intros []. eexists _, _. reflexivity.
  - exists t. destruct e_m, e'. cbv in Hlast. simplify_eq.
    split; [exact Hrun | cbn in Hcount; lia].
Defined.

(** *** The batcher *)

Section batcher_properties.

Context `{Network}.
Import Batcher.
Implicit Types (s : System) (b : EventBatcher) (w : World) (e : AgentEvent).

Lemma flush_enter_guard b :
  (isProcessing b || isStopped b) = true -> flush_enter b = None.
Proof. unfold flush_enter. by intros ->. Qed.

Lemma flush_enter_idle b :
  isProcessing b = false -> isStopped b = false ->
  flush_enter b =
    Some (set_isProcessing true b,
          (Q.peek (batchSize (config b)) (storage b)).1).
Proof. unfold flush_enter. by intros -> ->. Qed.

(** [finally]: however [processBatch] ends, the flag is cleared, and the
    rest of the batcher is as [processBatch] left it. *)
Lemma flush_leave_flags events b w :
  isProcessing (flush_leave events b w).1.2 = false
  /\ isStopped (flush_leave events b w).1.2 = isStopped b
  /\ config (flush_leave events b w).1.2 = config b
  /\ flushTimer (flush_leave events b w).1.2 = flushTimer b.
Proof.
  unfold flush_leave, processBatch_of.
  destruct (bool_decide _); [done|].
  destruct (sendBatch _ _ _) as [[result|[err|]] w1]; [done | | ].
  - destruct (onError _); [|done]. by destruct (negb _).
  - by destruct (onError _).
Qed.

Lemma flush_guard s :
  (isProcessing (batcher s) || isStopped (batcher s)) = true ->
  flush s = (Resolved, s) /\ flush_detached s = s.
Proof.
  intros Hguard. unfold flush, flush_detached. by rewrite flush_enter_guard.
Qed.

Lemma flush_is_detached_then_resumed s :
  suspended s = [] -> flush s = resume (flush_detached s).
Proof.
  intros Hnone. unfold flush, flush_detached, resume.
  destruct (flush_enter (batcher s)) as [[b1 events]|]; cbn.
  - rewrite Hnone. cbn. by destruct (flush_leave _ _ _) as [[r b2] w2].
  - rewrite Hnone. by destruct s.
Qed.

(** [stop] raises the flag before it calls [flush], and [flush] returns at
    its guard: nothing is sent and the queue is as it was. *)
Lemma stop_skips_flush s :
  (stop s).1 = Resolved
  /\ storage (batcher (stop s).2) = storage (batcher s)
  /\ world (stop s).2 = world s
  /\ suspended (stop s).2 = suspended s
  /\ isProcessing (batcher (stop s).2) = isProcessing (batcher s)
  /\ isStopped (batcher (stop s).2) = true
  /\ flushTimer (batcher (stop s).2) = None.
Proof.
  unfold stop.
  set (s1 := with_batcher _ s).
  destruct (flush_guard s1) as [-> _]; [|done].
  cbn. apply orb_true_r.
Qed.

Lemma add_stopped e s :
  isStopped (batcher s) = true ->
  add e s = (Some (new_Error "Batcher has been stopped"), s).
Proof. unfold add. by intros ->. Qed.

(** Once the batcher is stopped and no flush is suspended, no call changes
    the queue any more. *)
Lemma stopped_queue_frozen calls : forall s,
  isStopped (batcher s) = true -> suspended s = [] ->
  queue_of (run calls s) = queue_of s
  /\ world (run calls s) = world s.
Proof.
  induction calls as [|c calls IH]; intros s Hstopped Hnone; [done|].
  change (run (c :: calls) s) with (run calls (step s c)).
  assert (Hguard : (isProcessing (batcher s) || isStopped (batcher s)) = true)
    by (rewrite Hstopped; apply orb_true_r).
  assert (Hstep : isStopped (batcher (step s c)) = true
                  /\ suspended (step s c) = []
                  /\ queue_of (step s c) = queue_of s
                  /\ world (step s c) = world s).
  { destruct c as [e| | | |]; cbn [step].
    - by rewrite add_stopped.
    - by destruct (flush_guard s Hguard) as [_ ->].
    - destruct (flushTimer (batcher s)); [|done].
      by destruct (flush_guard s Hguard) as [_ ->].
    - destruct (stop_skips_flush s) as (_ & Hst & Hw & Hsus & _ & Hstop & _).
      unfold queue_of. by rewrite Hst, Hw, Hsus, Hstop.
    - unfold resume. by rewrite Hnone. }
  destruct Hstep as (Hs' & Hn' & Hq' & Hw').
  destruct (IH (step s c) Hs' Hn') as [Hq Hw]. by rewrite Hq, Hw.
Qed.

Lemma flush_detached_single_flight s :
  single_flight s -> single_flight (flush_detached s).
Proof.
  intros Hinv. unfold flush_detached, flush_enter.
  destruct (isProcessing (batcher s)) eqn:Hp; [exact Hinv|].
  destruct (isStopped (batcher s)); [exact Hinv|]. cbn.
  destruct Hinv as [Hlen Hflag]. rewrite Hp in Hflag.
  assert (suspended s = []) as ->.
  { destruct (suspended s); [done|]. by destruct Hflag as [_ ?%symmetry]. }
  split; cbn; [lia | done].
Qed.

Lemma step_single_flight s c : single_flight s -> single_flight (step s c).
Proof.
  intros Hinv. destruct c as [e| | | |]; cbn [step].
  - unfold add. destruct (isStopped (batcher s)); [done|].
    destruct (_ >=? _); [apply flush_detached_single_flight|]; apply Hinv.
  - by apply flush_detached_single_flight.
  - destruct (flushTimer (batcher s)); [|done].
    by apply flush_detached_single_flight.
  - destruct (stop_skips_flush s) as (_ & _ & _ & Hsus & Hproc & _).
    unfold single_flight. by rewrite Hsus, Hproc.
  - unfold resume.
    destruct (suspended s) as [|events rest] eqn:Hsus; [exact Hinv|].
    destruct Hinv as [Hlen Hflag]. rewrite Hsus in Hlen.
    destruct rest; [|cbn in Hlen; lia].
    pose proof (flush_leave_flags events (batcher s) (world s)) as (Hcleared & _).
    destruct (flush_leave _ _ _) as [[r b2] w2]. cbn in *.
    split; cbn; [lia | by rewrite Hcleared].
Qed.

Lemma run_single_flight calls : forall s, single_flight s -> single_flight (run calls s).
Proof.
  induction calls as [|c calls IH]; intros s Hinv; [done|].
  apply (IH (step s c)). by apply step_single_flight.
Qed.

(** C6.  [flush] returns at once, leaving the batcher, the queue and the
    world as they were, whenever a flush is in progress or the batcher is
    stopped; so whatever calls are made on a new batcher, and in whatever
    order the suspended flushes go on, at most one flush is ever under way,
    and the flag is set exactly while one is; and a flush that passed the
    guard clears the flag when it ends, however it ends. *)
Theorem flush_single_flight s :
  ((isProcessing (batcher s) || isStopped (batcher s)) = true ->
     flush s = (Resolved, s) /\ flush_detached s = s)
  /\ (forall cfg st w calls, single_flight (run calls (start cfg st w)))
  /\ (idle s -> isProcessing (batcher (flush s).2) = false)
  /\ (suspended s <> [] -> isProcessing (batcher (resume s).2) = false).
Proof.
  split_and!.
  - apply flush_guard.
  - intros cfg st w calls. apply run_single_flight. split; cbn; [lia | done].
  - intros [Hp Hs]. unfold flush. rewrite flush_enter_idle by done.
    pose proof (flush_leave_flags (Q.peek (batchSize (config (batcher s)))
                  (storage (batcher s))).1 (set_isProcessing true (batcher s)) (world s))
      as (Hcleared & _).
    by destruct (flush_leave _ _ _) as [[r b2] w2].
  - intros Hsome. unfold resume. destruct (suspended s) as [|events rest]; [done|].
    pose proof (flush_leave_flags events (batcher s) (world s)) as (Hcleared & _).
    by destruct (flush_leave _ _ _) as [[r b2] w2].
Qed.

(** C7.  [add] throws exactly when the batcher is stopped, and then the
    system is as it was.  Otherwise it pushes the event and touches nothing
    of the world; when the queue has then reached [batchSize] it calls
    [flush] without waiting for it: if no flush was in progress one is now
    suspended with its batch, the network still to be called. *)
Theorem add_behaviour e s :
  ((add e s).1 <> None <-> isStopped (batcher s) = true)
  /\ (isStopped (batcher s) = true ->
        add e s = (Some (new_Error "Batcher has been stopped"), s))
  /\ (isStopped (batcher s) = false ->
        let pushed := Q.push e (storage (batcher s)) in
        let size := batchSize (config (batcher s)) in
        storage (batcher (add e s).2) = pushed
        /\ world (add e s).2 = world s
        /\ (size <= Q.size pushed -> isProcessing (batcher s) = false ->
              isProcessing (batcher (add e s).2) = true
              /\ suspended (add e s).2 = suspended s ++ [(Q.peek size pushed).1])
        /\ (Q.size pushed < size \/ isProcessing (batcher s) = true ->
              isProcessing (batcher (add e s).2) = isProcessing (batcher s)
              /\ suspended (add e s).2 = suspended s)).
Proof.
  split_and!.
  - unfold add. destruct (isStopped (batcher s)); [done|].
    by destruct (_ >=? _).
  - apply add_stopped.
  - intros Hrun pushed size. unfold add. rewrite Hrun.
    set (s1 := with_batcher _ s).
    change (storage (batcher s1)) with pushed.
    change (batchSize (config (batcher s1))) with size.
    destruct (Z.geb_spec (Q.size pushed) size) as [Hge|Hlt]; cbn [snd].
    + unfold flush_detached, flush_enter.
      change (isProcessing (batcher s1)) with (isProcessing (batcher s)).
      change (isStopped (batcher s1)) with (isStopped (batcher s)).
      rewrite Hrun. subst s1.
      destruct (isProcessing (batcher s)) eqn:Hp; cbn; rewrite ?Hp.
      * split_and!; [done | done | intros _ [=] | done].
      * split_and!; [done | done | done |]. intros [?|?]; [lia | done].
    + subst s1. split_and!; [done | done | lia | done].
Qed.

Lemma filter_ext_elem {A} (P1 P2 : A -> Prop)
    `{!forall x, Decision (P1 x)} `{!forall x, Decision (P2 x)} (l : list A) :
  (forall x, x ∈ l -> P1 x <-> P2 x) -> filter P1 l = filter P2 l.
Proof.
  induction l as [|x l IH]; intros Hext; [done|].
  assert (Htail : filter P1 l = filter P2 l).
  { apply IH. intros y Hy. apply Hext. by right. }
  destruct (decide (P1 x)) as [Hx|Hx].
  - rewrite !filter_cons_True; [by rewrite Htail | | done].
    apply Hext; [by left | done].
  - rewrite !filter_cons_False; [done | | done].
    intros Hx2. apply Hx, Hext; [by left | done].
Qed.

(** What a filter keeps of the first [n] elements is among the first [n]
    elements of what it keeps. *)
Lemma take_filter_elem {A} (P : A -> Prop) `{!forall x, Decision (P x)}
    (n : nat) (l : list A) (x : A) :
  x ∈ take n l -> P x -> x ∈ take n (filter P l).
Proof.
  intros Hx HP. rewrite <- (take_drop n l) at 1. rewrite filter_app.
  rewrite take_app_ge.
  - apply elem_of_app. left. by apply list_elem_of_filter.
  - etrans; [apply length_filter|]. rewrite length_take. lia.
Qed.

Lemma remove_elem ids (st : Q.t) e :
  e ∈ Q.queue (Q.remove ids st) <-> ((event_id e ∉ ids) /\ e ∈ Q.queue st).
Proof.
  unfold Q.remove. cbn. rewrite list_elem_of_filter.
  by rewrite elem_of_list_to_set.
Qed.

Lemma accepted_ids_elem result events id :
  id ∈ accepted_ids result events <->
  exists e, e ∈ events /\ event_id e = id /\ find_error result id = None.
Proof.
  unfold accepted_ids. rewrite list_elem_of_fmap. split.
  - intros (e & -> & [Hnone He]%list_elem_of_filter). by exists e.
  - intros (e & He & <- & Hnone). exists e. split; [done|].
    by apply list_elem_of_filter.
Qed.

Lemma accepted_ids_all result events :
  rejects_nothing result -> accepted_ids result events = event_id <$> events.
Proof.
  intros Hnone. unfold accepted_ids. f_equal.
  induction events as [|e events IH]; [done|].
  rewrite filter_cons_True by apply Hnone. by rewrite IH.
Qed.

Lemma batch_of_prefix s : batch_of s `prefix_of` queue_of s.
Proof. apply prefix_take. Qed.

Lemma batch_of_nonneg s :
  0 <= batchSize (config (batcher s)) ->
  batch_of s = take (Z.to_nat (batchSize (config (batcher s)))) (queue_of s).
Proof. intros Hn. by apply array_slice0_nonneg. Qed.

(** The opening of a proof about a flush that passes the guard: the call is
    unfolded down to the outcome of [sendBatch]. *)
Ltac enter_flush s :=
  unfold flush;
  rewrite flush_enter_idle by done;
  fold (batch_of s);
  unfold flush_leave, processBatch_of.

Ltac batch_not_empty s :=
  rewrite bool_decide_eq_false_2 by (by destruct (batch_of s));
  change (config (set_isProcessing true (batcher s))) with (config (batcher s)).

(** A flush that passes the guard and finds nothing to send. *)
Lemma flush_empty s :
  idle s -> batch_of s = [] -> queue_of (flush s).2 = queue_of s.
Proof.
  intros [Hp Hs] Hbatch. enter_flush s. by rewrite Hbatch.
Qed.

(** A flush that passes the guard and whose call of the collector returns
    a result. *)
Lemma flush_returned s result w1 :
  idle s -> batch_of s <> [] ->
  sendBatch (config (batcher s)) (batch_of s) (world s) = (Retry.Returned result, w1) ->
  (flush s).1 = Resolved
  /\ storage (batcher (flush s).2)
       = Q.remove (accepted_ids result (batch_of s)) (storage (batcher s))
  /\ config (batcher (flush s).2) = config (batcher s)
  /\ idle (flush s).2
  /\ suspended (flush s).2 = suspended s
  /\ world (flush s).2 = w1.
Proof.
  intros [Hp Hs] Hbatch Hsend. unfold idle.
  enter_flush s. batch_not_empty s. by rewrite Hsend.
Qed.

(** A flush that passes the guard, whose call of the collector throws an
    error that is not retryable, with an error observer configured. *)
Lemma flush_threw_permanent s err w1 :
  idle s -> batch_of s <> [] ->
  onError (config (batcher s)) = true ->
  sendBatch (config (batcher s)) (batch_of s) (world s) = (Retry.Threw (Some err), w1) ->
  Retry.isRetryableError err = false ->
  (flush s).1 = Resolved
  /\ storage (batcher (flush s).2)
       = Q.remove (event_id <$> batch_of s) (storage (batcher s))
  /\ world (flush s).2 = record_io (ErrorObserved err (batch_of s)) w1.
Proof.
  intros [Hp Hs] Hbatch Hobs Hsend Hperm.
  enter_flush s. batch_not_empty s. by rewrite Hsend, Hobs, Hperm.
Qed.

(** C3.  When a flush passes the guard and the collector returns a result,
    an event of the batch stays in the queue exactly when the result names
    it as rejected; when the batch was the whole queue, the queue afterwards
    is exactly the rejected events, in order; and a following flush whose
    result rejects nothing removes them too, so that no event of the first
    batch is left. *)
Theorem flush_partial_rejection s result w1 :
  idle s -> batch_of s <> [] ->
  sendBatch (config (batcher s)) (batch_of s) (world s) = (Retry.Returned result, w1) ->
  let s' := (flush s).2 in
  (flush s).1 = Resolved
  /\ (forall e, e ∈ batch_of s -> (e ∈ queue_of s' <-> names_rejected result e))
  /\ (Q.size (storage (batcher s)) <= batchSize (config (batcher s)) ->
        queue_of s' = filter (names_rejected result) (queue_of s))
  /\ (forall result2 w2,
        0 <= batchSize (config (batcher s)) ->
        rejects_nothing result2 ->
        sendBatch (config (batcher s')) (batch_of s') (world s') = (Retry.Returned result2, w2) ->
        forall e, e ∈ batch_of s -> e ∉ queue_of (flush s').2).
Proof.
  intros Hidle Hbatch Hsend s'.
  destruct (flush_returned s result w1 Hidle Hbatch Hsend)
    as (Hres & Hst & Hcfg & Hidle' & Hsus & Hw).
  assert (Hkept : forall e, e ∈ batch_of s ->
            (event_id e ∉ accepted_ids result (batch_of s) <-> names_rejected result e)).
  { intros e He. rewrite accepted_ids_elem. unfold names_rejected. split.
    - intros Hnot Hnone. apply Hnot. by exists e.
    - intros Hrej (e' & _ & Hid & Hnone). done. }
  assert (Hq' : forall e, e ∈ batch_of s -> (e ∈ queue_of s' <-> names_rejected result e)).
  { intros e He. unfold queue_of, s'. rewrite Hst, remove_elem, (Hkept e He).
    split; [by intros [? _] | intros Hrej; split; [done|]].
    eapply elem_of_prefix; [done | apply batch_of_prefix]. }
  split_and!; [done | done | |].
  - intros Hall. unfold queue_of at 1. unfold s'. rewrite Hst.
    unfold Q.remove. cbn [Q.queue].
    assert (Hwhole : batch_of s = queue_of s).
    { unfold batch_of, queue_of, Q.peek, Q.array_slice0, Q.size in *. cbn.
      destruct (Z.ltb_spec (batchSize (config (batcher s))) 0); apply take_ge; lia. }
    rewrite Hwhole in Hkept. rewrite Hwhole. fold (queue_of s).
    apply filter_ext_elem. intros e He.
    rewrite elem_of_list_to_set. by apply Hkept.
  - intros result2 w2 Hsize Hnone Hsend2 e He Hin.
    assert (Hin' : e ∈ queue_of s').
    { destruct (decide (batch_of s' = [])) as [Hempty|Hnonempty].
      - by rewrite flush_empty in Hin.
      - destruct (flush_returned s' result2 w2 Hidle' Hnonempty Hsend2) as (_ & Hst2 & _).
        unfold queue_of in Hin. rewrite Hst2 in Hin. by apply remove_elem in Hin as [_ ?]. }
    assert (Hnext : e ∈ batch_of s').
    { rewrite batch_of_nonneg by (unfold s'; by rewrite Hcfg).
      unfold s' at 1. rewrite Hcfg. unfold queue_of, s'. rewrite Hst.
      unfold Q.remove. cbn [Q.queue].
      apply take_filter_elem.
      - by rewrite <- batch_of_nonneg.
      - rewrite elem_of_list_to_set. apply Hkept; [done|]. by apply Hq'. }
    destruct (decide (batch_of s' = [])) as [Hempty|Hnonempty].
    + rewrite Hempty in Hnext. by apply elem_of_nil in Hnext.
    + destruct (flush_returned s' result2 w2 Hidle' Hnonempty Hsend2) as (_ & Hst2 & _).
      unfold queue_of in Hin. rewrite Hst2, accepted_ids_all in Hin by done.
      apply remove_elem in Hin as [Hnot _]. apply Hnot.
      apply list_elem_of_fmap. by exists e.
Qed.

Lemma sendBatch_threw cfg events w x w1 :
  0 <= maxRetries cfg ->
  sendBatch cfg events w = (Retry.Threw x, w1) ->
  exists t, trace w1 = trace w ++ t
            /\ observed t = []
            /\ Z.of_nat (invocations t) = maxRetries cfg + 1.
Proof.
  intros Hm. unfold sendBatch, Retry.withRetry.
  destruct (randomUUID (env w)) as [batch_id env1]. intros Hsend.
  set (options := Retry.Build_RetryOptions _ _ _ _) in Hsend.
  destruct (attempts_trace (post_events cfg events batch_id) options
              (Z.to_nat (Retry.maxRetries options + 1)) 0 None
              {| env := env1; trace := trace w |}) as (t & Ht & Hobs & Hinv).
  rewrite Hsend in Ht, Hinv. exists t. split_and!; [done | done |].
  rewrite (Hinv x); [cbn; lia | cbn; lia | done].
Qed.

Lemma http_4xx_not_retryable st text :
  400 <= st < 500 -> st <> 429 ->
  Retry.isRetryableError (http_error st text) = false.
Proof.
  intros Hrange Hne. unfold Retry.isRetryableError, http_error. cbn.
  destruct (Z.eqb_spec st 429); [done|].
  destruct (Z.geb_spec st 500); [lia | done].
Qed.

(** C4, as the code has it.  The retry executor does not classify errors:
    a call that fails is retried until [maxRetries + 1] calls have been
    made, whatever the error.  When the error thrown in the end is not
    retryable and an error observer is configured, the flush resolves, the
    observer has been called once, with that error and the events of the
    batch, and the queue has lost exactly the events that carry an
    identifier of the batch.  An error built for an HTTP status from 400
    to 499 other than 429 is not retryable. *)
Theorem flush_permanent_failure s err w1 :
  idle s -> batch_of s <> [] ->
  onError (config (batcher s)) = true ->
  0 <= maxRetries (config (batcher s)) ->
  sendBatch (config (batcher s)) (batch_of s) (world s) = (Retry.Threw (Some err), w1) ->
  Retry.isRetryableError err = false ->
  let s' := (flush s).2 in
  (flush s).1 = Resolved
  /\ (forall e, e ∈ batch_of s -> e ∉ queue_of s')
  /\ (forall e, e ∈ queue_of s' <->
                (e ∈ queue_of s /\ (event_id e ∉ event_id <$> batch_of s)))
  /\ (exists t,
        trace (world s') = trace (world s) ++ t ++ [ErrorObserved err (batch_of s)]
        /\ observed t = []
        /\ Z.of_nat (invocations t) = maxRetries (config (batcher s)) + 1)
  /\ observed (trace (world s')) = observed (trace (world s)) ++ [(err, batch_of s)]
  /\ (forall st text, 400 <= st < 500 -> st <> 429 ->
        Retry.isRetryableError (http_error st text) = false).
Proof.
  intros Hidle Hbatch Hobs Hm Hsend Hperm s'.
  destruct (flush_threw_permanent s err w1 Hidle Hbatch Hobs Hsend Hperm)
    as (Hres & Hst & Hw).
  destruct (sendBatch_threw _ _ _ _ _ Hm Hsend) as (t & Ht & Hnone & Hcount).
  assert (Hq : forall e, e ∈ queue_of s' <->
                 (e ∈ queue_of s /\ (event_id e ∉ event_id <$> batch_of s))).
  { intros e. unfold queue_of, s'. rewrite Hst, remove_elem. tauto. }
  split_and!; [done | | done | | | apply http_4xx_not_retryable].
  - intros e He [_ Hnot]%Hq. apply Hnot, list_elem_of_fmap. by exists e.
  - exists t. unfold s'. rewrite Hw. cbn. by rewrite Ht, <- (assoc_L (++)).
  - unfold s'. rewrite Hw. cbn. rewrite Ht, !observed_app, Hnone. by rewrite app_nil_r.
Qed.

End batcher_properties.

(** C1.  A batcher with two events queued, a batch size of 100 and a
    collector that accepts everything: [stop] returns with both events
    still queued and without one call of the transport, and no later call
    removes them, although a [flush] before [stop] drains the queue.  After
    [stop] every [add] throws. *)
Theorem stop_leaves_events_queued :
  let queued := [sample_event "a"; sample_event "b"] in
  let s := Batcher.start (sample_config 100 3 true)
             (Q.push_all queued createQueueStorage)
             (constant_world (accepting 2 [])) in
  queue_of (Batcher.stop s).2 = queued
  /\ invocations (trace (Batcher.world (Batcher.stop s).2)) = 0%nat
  /\ (forall calls, queue_of (Batcher.run calls (Batcher.stop s).2) = queued)
  /\ (forall e, (Batcher.add e (Batcher.stop s).2).1
                = Some (new_Error "Batcher has been stopped"))
  /\ queue_of (Batcher.flush s).2 = [].
Proof.
  intros queued s.
  destruct (stop_skips_flush s) as (_ & Hst & Hw & Hsus & _ & Hstop & _).
  split_and!.
  - unfold queue_of. by rewrite Hst.
  - by rewrite Hw.
  - intros calls.
    destruct (stopped_queue_frozen calls (Batcher.stop s).2 Hstop Hsus) as [-> _].
    unfold queue_of. by rewrite Hst.
  - intros e. by rewrite add_stopped.
  - by vm_compute.
Qed.

Lemma flush_single_flight_witness :
  let s := Batcher.start (sample_config 2 3 true)
             (Q.push_all [sample_event "a"] createQueueStorage)
             (constant_world (accepting 2 [])) in
  let s1 := Batcher.run [Batcher.CallAdd (sample_event "b")] s in
  Batcher.suspended s1 = [[sample_event "a"; sample_event "b"]]
  /\ Batcher.flush s1 = (Resolved, s1)
  /\ Batcher.isProcessing (Batcher.batcher (Batcher.resume s1).2) = false
  /\ Batcher.isProcessing (Batcher.batcher (Batcher.flush s).2) = false.
Proof.
  intros s s1.
  destruct (flush_single_flight s1) as (Hguard & _ & _ & Hresume).
  destruct (flush_single_flight s) as (_ & _ & Hidle & _).
  split_and!.
  - reflexivity.
  - apply Hguard. reflexivity.
  - apply Hresume. discriminate.
  - apply Hidle. split; reflexivity.
Defined.

Lemma add_behaviour_witness :
  let s := Batcher.start (sample_config 2 3 true)
             (Q.push_all [sample_event "a"] createQueueStorage)
             (constant_world (accepting 2 [])) in
  let s' := (Batcher.add (sample_event "b") s).2 in
  queue_of s' = [sample_event "a"; sample_event "b"]
  /\ Batcher.world s' = Batcher.world s
  /\ Batcher.suspended s' = [[sample_event "a"; sample_event "b"]]
  /\ Batcher.add (sample_event "c") (Batcher.stop s).2
     = (Some (new_Error "Batcher has been stopped"), (Batcher.stop s).2).
Proof.
  intros s s'.
  destruct (add_behaviour (sample_event "b") s) as (_ & _ & Hrun).
  destruct Hrun as (Hpushed & Hworld & Hflush & _); [reflexivity|].
  destruct Hflush as [_ Hsus]; [vm_compute; discriminate | reflexivity |].
  destruct (add_behaviour (sample_event "c") (Batcher.stop s).2) as (_ & Hstopped & _).
  split_and!.
  - unfold queue_of, s'. rewrite Hpushed. reflexivity.
  - exact Hworld.
  - unfold s'. rewrite Hsus. reflexivity.
  - apply Hstopped. reflexivity.
Defined.

Lemma flush_partial_rejection_witness :
  let queued := sample_event <$> ["a"; "b"; "c"; "d"; "e"] in
  let s := Batcher.start (sample_config 100 3 true)
             (Q.push_all queued createQueueStorage)
             (scripted_world [accepting 3 ["b"; "d"]; accepting 2 []]) in
  queue_of (Batcher.flush s).2 = [sample_event "b"; sample_event "d"]
  /\ sample_event "b" ∉ queue_of (Batcher.flush (Batcher.flush s).2).2.
Proof.
  intros queued s.
  edestruct (flush_partial_rejection s) as (_ & _ & Hwhole & Hnext).
  - split; reflexivity.
  - vm_compute. discriminate.
  - reflexivity.
  - split.
    + rewrite Hwhole; [reflexivity | vm_compute; discriminate].
    + eapply (Hnext {| accepted := 2; rejected := 0; errors := None |}).
      * vm_compute. discriminate.
      * intros id. reflexivity.
      * reflexivity.
      * apply list_elem_of_In. vm_compute. tauto.
Defined.

(** The claim of C4 as it is written, tried on a collector that answers
    [400 Bad Request] to every call: the error is not retryable, and yet
    the call is made four times, with the waits of the backoff between. *)
Lemma flush_retries_permanent_failure :
  let s := Batcher.start (sample_config 100 3 true)
             (Q.push_all [sample_event "a"] createQueueStorage)
             (constant_world (http_response 400 "Bad Request" (inl (new_Error "no body")))) in
  Retry.isRetryableError (Batcher.http_error 400 "Bad Request") = false
  /\ observed (trace (Batcher.world (Batcher.flush s).2))
     = [(Batcher.http_error 400 "Bad Request", [sample_event "a"])]
  /\ invocations (trace (Batcher.world (Batcher.flush s).2)) = 4%nat
  /\ waits (trace (Batcher.world (Batcher.flush s).2)) = [1000; 2000; 4000].
Proof. by vm_compute. Qed.

Lemma flush_permanent_failure_witness :
  let s := Batcher.start (sample_config 100 3 true)
             (Q.push_all [sample_event "a"; sample_event "b"] createQueueStorage)
             (constant_world (http_response 400 "Bad Request" (inl (new_Error "no body")))) in
  (forall e, e ∈ batch_of s -> e ∉ queue_of (Batcher.flush s).2)
  /\ observed (trace (Batcher.world (Batcher.flush s).2))
     = [(Batcher.http_error 400 "Bad Request", [sample_event "a"; sample_event "b"])].
Proof.
  intros s.
  edestruct (flush_permanent_failure s) as (_ & Hgone & _ & _ & Hobserved & _).
  - split; reflexivity.
  - vm_compute. discriminate.
  - reflexivity.
  - vm_compute. discriminate.
  - reflexivity.
  - reflexivity.
  - split; [exact Hgone | rewrite Hobserved; reflexivity].
Defined.

(** *** The client *)

Lemma or_number_defaulted supplied fallback :
  defaulted supplied fallback (Client.or_number supplied fallback).
Proof.
  unfold defaulted, Client.or_number. split_and!.
  - by intros ->.
  - by intros ->.
  - intros v -> Hv. by destruct (Z.eqb_spec v 0).
Qed.

(** The claim of C8 as it is written, tried on tunables that are negative:
    no error is raised and the batcher is built with them. *)
Lemma constructor_accepts_negative_tunables :
  exists client,
    Client.constructor (tunables (Some (-5)) (Some (-1)) (Some (-2)) (Some (-1000))) "agent-1"
      = inr client
    /\ Batcher.batchSize (Batcher.config (Client.batcher client)) = -5
    /\ Batcher.flushInterval (Batcher.config (Client.batcher client)) = -1
    /\ Batcher.maxRetries (Batcher.config (Client.batcher client)) = -2
    /\ Batcher.retryDelay (Batcher.config (Client.batcher client)) = -1000.
Proof. eexists. split; [reflexivity|]. by vm_compute. Qed.

(** C8, as the code has it.  The constructor throws only for an empty API
    key.  For every other configuration it builds the client, whatever the
    tunables: each of batch size, flush interval, max retries and retry
    delay is its default (100, 1000, 3, 1000) when it is absent or zero, and
    the value supplied otherwise, negative values included; the batcher is
    built with these values. *)
Theorem constructor_applies_defaults (cfg : Client.IdentroConfig) (generated : string) :
  Client.apiKey cfg <> "" ->
  exists client,
    Client.constructor cfg generated = inr client
    /\ defaulted (Client.batchSize cfg) 100 (Client.batchSize' (Client.config client))
    /\ defaulted (Client.flushInterval cfg) 1000 (Client.flushInterval' (Client.config client))
    /\ defaulted (Client.maxRetries cfg) 3 (Client.maxRetries' (Client.config client))
    /\ defaulted (Client.retryDelay cfg) 1000 (Client.retryDelay' (Client.config client))
    /\ Batcher.batchSize (Batcher.config (Client.batcher client))
       = Client.batchSize' (Client.config client)
    /\ Batcher.flushInterval (Batcher.config (Client.batcher client))
       = Client.flushInterval' (Client.config client)
    /\ Batcher.maxRetries (Batcher.config (Client.batcher client))
       = Client.maxRetries' (Client.config client)
    /\ Batcher.retryDelay (Batcher.config (Client.batcher client))
       = Client.retryDelay' (Client.config client).
Proof.
  intros Hkey. unfold Client.constructor.
  rewrite bool_decide_eq_false_2 by done.
  eexists. split; [reflexivity|]. cbn.
  do 4 (split; [apply or_number_defaulted|]). done.
Qed.

Lemma constructor_applies_defaults_witness :
  exists client,
    Client.constructor (tunables None None None None) "agent-1" = inr client
    /\ Client.batchSize' (Client.config client) = 100
    /\ Client.flushInterval' (Client.config client) = 1000
    /\ Client.maxRetries' (Client.config client) = 3
    /\ Client.retryDelay' (Client.config client) = 1000.
Proof.
  destruct (constructor_applies_defaults (tunables None None None None) "agent-1")
    as (client & Hbuilt & Hsize & Hinterval & Hretries & Hdelay & _).
  - discriminate.
  - exists client. split; [exact Hbuilt|].
    destruct Hsize as [Hsize _], Hinterval as [Hinterval _],
      Hretries as [Hretries _], Hdelay as [Hdelay _].
    rewrite (Hsize eq_refl), (Hinterval eq_refl), (Hretries eq_refl), (Hdelay eq_refl).
    by split_and!.
Defined.

(** ** Part III: further properties of the code *)

(** *** The storage *)

Section storage_extras.

Implicit Types (s : Q.t) (e : AgentEvent) (l : list AgentEvent).

(** X1.  Whatever the capacity, zero and negative ones included, [push]
    keeps the event it is given as the newest of the queue; it evicts at
    most one event, the oldest, and the size never shrinks. *)
Theorem push_keeps_new_event e s :
  last (Q.queue (Q.push e s)) = Some e
  /\ (Q.queue (Q.push e s) = Q.queue s ++ [e]
      \/ Q.queue (Q.push e s) = drop 1 (Q.queue s) ++ [e])
  /\ 1 <= Q.size (Q.push e s)
  /\ Q.size s <= Q.size (Q.push e s) <= Q.size s + 1.
Proof.
  unfold Q.push, Q.size, Q.array_shift. cbn [Q.queue].
  destruct (_ >=? _).
  - split; [apply last_snoc|]. split; [by right|].
    rewrite length_app, length_drop. cbn. lia.
  - split; [apply last_snoc|]. split; [by left|].
    rewrite length_app. cbn. lia.
Qed.

Lemma shift_n_queue l : forall s,
  Q.queue s = l ->
  (shift_n (length l) s).1 = Some <$> l
  /\ Q.queue (shift_n (length l) s).2 = []
  /\ Q.maxSize (shift_n (length l) s).2 = Q.maxSize s.
Proof.
  induction l as [|x l IH]; intros s Hq; [done|].
  cbn [length shift_n]. unfold Q.shift, Q.array_shift. rewrite Hq. cbn [head drop].
  destruct (IH (Q.Build_t l (Q.maxSize s)) eq_refl) as (Hout & Hleft & Hmax).
  destruct (shift_n (length l) _) as [others s2]. cbn in *.
  by subst others.
Qed.

(** X2.  First in, first out: the events pushed on an empty queue, no more
    of them than its capacity, come back from [shift] in the order they
    were pushed, and then the queue is empty; [shift] on an empty queue
    returns [undefined] and leaves it empty. *)
Theorem shift_returns_pushed_in_order s l :
  0 < Q.maxSize s -> Q.queue s = [] ->
  Z.of_nat (length l) <= Q.maxSize s ->
  (shift_n (length l) (Q.push_all l s)).1 = Some <$> l
  /\ Q.queue (shift_n (length l) (Q.push_all l s)).2 = []
  /\ Q.shift (shift_n (length l) (Q.push_all l s)).2
     = (None, (shift_n (length l) (Q.push_all l s)).2).
Proof.
  intros Hpos Hempty Hfit.
  assert (Hq : Q.queue (Q.push_all l s) = l).
  { rewrite push_all_queue by (unfold Q.size; rewrite ?Hempty; cbn; lia).
    rewrite Hempty. cbn [app].
    by replace (length l - Z.to_nat (Q.maxSize s))%nat with 0%nat by lia. }
  destruct (shift_n_queue l (Q.push_all l s) Hq) as (Hout & Hleft & _).
  split_and!; [done | done |].
  unfold Q.shift, Q.array_shift. rewrite Hleft. cbn.
  destruct (shift_n _ _).2 as [q m]. cbn in Hleft. by subst q.
Qed.

Lemma shift_returns_pushed_in_order_witness :
  let l := [sample_event "a"; sample_event "b"; sample_event "c"] in
  (shift_n 3 (Q.push_all l (Q.constructor (Some 3)))).1 = Some <$> l.
Proof.
  intros l.
  destruct (shift_returns_pushed_in_order (Q.constructor (Some 3)) l) as (Hout & _).
  - reflexivity.
  - reflexivity.
  - vm_compute. discriminate.
  - exact Hout.
Defined.

Lemma remove_queue_ext ids1 ids2 s :
  (forall id, id ∈ ids1 <-> id ∈ ids2) -> Q.remove ids1 s = Q.remove ids2 s.
Proof.
  intros Hsame. unfold Q.remove. f_equal. apply list_filter_iff. intros e.
  by rewrite !elem_of_list_to_set, Hsame.
Qed.

(** X3.  [remove] deletes the events whose identifier is named, wherever
    they are, and no other; what stays keeps its order.  Removing twice is
    removing once, removing in two calls is removing the two lists at once,
    identifiers that no event carries change nothing, and the capacity is
    kept. *)
Theorem remove_deletes_named ids ids' s :
  (forall e, e ∈ Q.queue (Q.remove ids s) <->
             (e ∈ Q.queue s /\ (event_id e ∉ ids)))
  /\ Q.queue (Q.remove ids s) `sublist_of` Q.queue s
  /\ Q.remove ids (Q.remove ids s) = Q.remove ids s
  /\ Q.remove ids' (Q.remove ids s) = Q.remove (ids ++ ids') s
  /\ ((forall e, e ∈ Q.queue s -> event_id e ∉ ids) ->
        Q.queue (Q.remove ids s) = Q.queue s)
  /\ Q.maxSize (Q.remove ids s) = Q.maxSize s.
Proof.
  assert (Htwo : forall ids1 ids2,
            Q.remove ids2 (Q.remove ids1 s) = Q.remove (ids1 ++ ids2) s).
  { intros ids1 ids2. unfold Q.remove. cbn [Q.queue Q.maxSize]. f_equal.
    rewrite list_filter_filter. apply list_filter_iff. intros e.
    rewrite !elem_of_list_to_set, elem_of_app. tauto. }
  split_and!.
  - intros e. rewrite remove_elem. tauto.
  - apply sublist_filter.
  - rewrite Htwo. apply remove_queue_ext. intros id. rewrite elem_of_app. tauto.
  - apply Htwo.
  - intros Hnone. unfold Q.remove. cbn [Q.queue].
    induction (Q.queue s) as [|e q IH]; [done|].
    rewrite filter_cons_True.
    + f_equal. apply IH. intros e' He'. apply Hnone. by right.
    + rewrite elem_of_list_to_set. apply Hnone. by left.
  - done.
Qed.

(** X4.  A negative count makes [peek] count from the end: [peek(-k)]
    returns all the events but the [k] newest, and nothing when the queue
    holds no more than [k]. *)
Theorem peek_negative_count (k : Z) s :
  0 < k ->
  (Q.peek (- k) s).1 = take (length (Q.queue s) - Z.to_nat k) (Q.queue s)
  /\ (Q.size s <= k -> (Q.peek (- k) s).1 = []).
Proof.
  intros Hk. unfold Q.peek, Q.array_slice0, Q.size. cbn [fst].
  destruct (Z.ltb_spec (- k) 0); [|lia].
  assert (Hn : Z.to_nat (Z.max (Z.of_nat (length (Q.queue s)) + - k) 0)
               = (length (Q.queue s) - Z.to_nat k)%nat) by lia.
  rewrite Hn. split; [done|]. intros Hsmall.
  by replace (length (Q.queue s) - Z.to_nat k)%nat with 0%nat by lia.
Qed.

Lemma peek_negative_count_witness :
  let s := Q.push_all [sample_event "a"; sample_event "b"; sample_event "c"]
             (Q.constructor None) in
  (Q.peek (-1) s).1 = [sample_event "a"; sample_event "b"].
Proof.
  intros s. destruct (peek_negative_count 1 s) as [Hall _]; [lia|].
  etrans; [apply Hall | reflexivity].
Defined.

End storage_extras.

Lemma remove_deletes_named_witness :
  let s := Q.push_all [sample_event "a"; sample_event "b"; sample_event "c"]
             (Q.constructor None) in
  Q.queue (Q.remove ["b"] s) = [sample_event "a"; sample_event "c"]
  /\ Q.queue (Q.remove ["x"; "y"] s) = Q.queue s.
Proof.
  intros s.
  destruct (remove_deletes_named ["x"; "y"] [] s) as (_ & _ & _ & _ & Hnone & _).
  split; [reflexivity|]. apply Hnone.
  intros e He. apply list_elem_of_In in He. vm_compute in He.
  destruct He as [<-|[<-|[<-|[]]]]; apply (bool_decide_unpack _); by vm_compute.
Defined.

(** *** The retry executor *)

Section retry_extras.

Context `{Network} {T : Type}.
Implicit Types (fn : Env -> (JsError + T) * Env) (options : Retry.RetryOptions).
Implicit Types (w : World).

Lemma hook_calls_app t1 t2 : hook_calls (t1 ++ t2) = (hook_calls t1 + hook_calls t2)%nat.
Proof. unfold hook_calls. by rewrite filter_app, length_app. Qed.

Lemma invocations_Invoked a : invocations [Invoked a] = 1%nat.
Proof. reflexivity. Qed.

Lemma invocations_RetryHook error a : invocations [RetryHook error a] = 0%nat.
Proof. reflexivity. Qed.

Lemma invocations_Waited d : invocations [Waited d] = 0%nat.
Proof. reflexivity. Qed.

Lemma invocations_nil : invocations [] = 0%nat.
Proof. reflexivity. Qed.

Lemma hook_calls_Invoked a : hook_calls [Invoked a] = 0%nat.
Proof. reflexivity. Qed.

Lemma hook_calls_RetryHook error a : hook_calls [RetryHook error a] = 1%nat.
Proof. reflexivity. Qed.

Lemma hook_calls_Waited d : hook_calls [Waited d] = 0%nat.
Proof. reflexivity. Qed.

Lemma hook_calls_nil : hook_calls [] = 0%nat.
Proof. reflexivity. Qed.

Create Rewrite HintDb trace_count.

Hint Rewrite invocations_app invocations_Invoked invocations_RetryHook
  invocations_Waited invocations_nil hook_calls_app hook_calls_Invoked
  hook_calls_RetryHook hook_calls_Waited hook_calls_nil
  waits_app @length_app : trace_count.

(** The loop calls the operation at least once and at most as many times
    as attempts remain; it waits once between two calls, never longer than
    the cap, and calls the hook once per wait when there is one. *)
Lemma attempts_bounds fn options remaining :
  forall attempt lastError w,
    Z.of_nat remaining = Retry.maxRetries options + 1 - attempt ->
    exists t,
      trace (Retry.attempts fn options remaining attempt lastError w).2 = trace w ++ t
      /\ (invocations t <= remaining)%nat
      /\ (remaining <> 0%nat -> invocations t = S (length (waits t)))
      /\ Forall (fun d => d <= Retry.maxDelay_or_default options) (waits t)
      /\ hook_calls t = (if Retry.onRetry options then length (waits t) else 0%nat).
Proof.
  induction remaining as [|remaining IH]; intros attempt lastError w Hrem.
  - exists []. cbn. rewrite app_nil_r.
    split_and!; [done | done | done | done | by destruct (Retry.onRetry options)].
  - cbn [Retry.attempts]. destruct (fn (env w)) as [[error|v] e1].
    + destruct (Z.eqb_spec attempt (Retry.maxRetries options)) as [Heq|Hne].
      * exists [Invoked attempt]. change (invocations [Invoked attempt]) with 1%nat.
        split_and!; [done | lia | done | done | by destruct (Retry.onRetry options)].
      * set (w3 := record_io (Waited _) _).
        destruct (IH (attempt + 1) (Some error) w3 ltac:(lia))
          as (t & Ht & Hle & Hwaits & Hcap & Hhooks).
        exists ([Invoked attempt]
                ++ (if Retry.onRetry options then [RetryHook error (attempt + 1)] else [])
                ++ [Waited (Retry.backoff (Retry.retryDelay options)
                              (Retry.maxDelay_or_default options) attempt)]
                ++ t).
        assert (remaining <> 0%nat) by lia.
        split_and!.
        -- rewrite Ht. subst w3.
           destruct (Retry.onRetry options); cbn; by rewrite <- !(assoc_L (++)).
        -- destruct (Retry.onRetry options); autorewrite with trace_count; cbn; lia.
        -- intros _. specialize (Hwaits ltac:(done)).
           destruct (Retry.onRetry options); autorewrite with trace_count; cbn; lia.
        -- rewrite !waits_app. repeat apply Forall_app_2; try done.
           ++ by destruct (Retry.onRetry options).
           ++ apply Forall_singleton, Z.le_min_r.
        -- destruct (Retry.onRetry options); autorewrite with trace_count;
             rewrite Hhooks; cbn; lia.
    + exists [Invoked attempt]. change (invocations [Invoked attempt]) with 1%nat.
      split_and!; [done | lia | done | done | by destruct (Retry.onRetry options)].
Qed.

(** X5.  Whatever the operation does, with [maxRetries >= 0] [withRetry]
    calls it at least once and at most [maxRetries + 1] times, waits exactly
    once between two calls and not after the last, never waits longer than
    [maxDelay] (30000 when none is given), and calls the hook exactly once
    per wait when there is one. *)
Theorem withRetry_bounds fn options w :
  0 <= Retry.maxRetries options ->
  exists t,
    trace (Retry.withRetry fn options w).2 = trace w ++ t
    /\ 1 <= Z.of_nat (invocations t) <= Retry.maxRetries options + 1
    /\ invocations t = S (length (waits t))
    /\ Forall (fun d => d <= default 30000 (Retry.maxDelay options)) (waits t)
    /\ hook_calls t = (if Retry.onRetry options then length (waits t) else 0%nat).
Proof.
  intros Hm. unfold Retry.withRetry.
  destruct (attempts_bounds fn options (Z.to_nat (Retry.maxRetries options + 1)) 0 None w)
    as (t & Ht & Hle & Hwaits & Hcap & Hhooks); [lia|].
  exists t. rewrite Hwaits in * by lia.
  split_and!; [done | lia | lia | done | done | done].
Qed.

End retry_extras.

Lemma withRetry_bounds_witness :
  let options := {| Retry.maxRetries := 2; Retry.retryDelay := 20000;
                    Retry.maxDelay := None; Retry.onRetry := true |} in
  let answer := http_response 503 "Service Unavailable" (inl (new_Error "no body")) in
  let fn := Batcher.post_events (H := Constant answer) (sample_config 100 2 true)
              [sample_event "a"] "batch" in
  exists t, trace (Retry.withRetry fn options (constant_world answer)).2 = t
            /\ (invocations t <= 3)%nat.
Proof.
  intros options answer fn.
  destruct (withRetry_bounds fn options (constant_world answer))
    as (t & Ht & Hcalls & _).
  - vm_compute. discriminate.
  - exists t. split; [exact Ht|]. cbn in Hcalls. lia.
Defined.

(** X6.  The error that [sendBatch] builds for a response that is not [ok]
    is retryable exactly when the status is 429 or from 500 to 599; every
    other status, 3xx and 4xx included, gives a permanent error. *)
Theorem http_error_retryable_iff (st : Z) (text : string) :
  Retry.isRetryableError (Batcher.http_error st text) = true
  <-> (st = 429 \/ 500 <= st < 600).
Proof.
  unfold Retry.isRetryableError, Batcher.http_error. cbn.
  destruct (Z.eqb_spec st 429), (Z.geb_spec st 500), (Z.ltb_spec st 600);
    cbn; split; (done || lia || tauto || (intros; lia)).
Qed.

(** *** The batcher *)

Section batcher_extras.

Context `{Network}.
Import Batcher.
Implicit Types (s : System) (b : EventBatcher) (w : World) (e : AgentEvent).

Ltac open_flush s :=
  unfold flush;
  rewrite flush_enter_idle by done;
  fold (batch_of s);
  unfold flush_leave, processBatch_of;
  rewrite ?bool_decide_eq_false_2 by (by destruct (batch_of s));
  change (config (set_isProcessing true (batcher s))) with (config (batcher s)).

(** X7.  A flush whose call of the collector ends, retries used up, in a
    retryable error, with an error observer configured: the flush resolves,
    the observer is called once with the error and the batch, and the queue
    is left as it was, so that the next flush peeks the same batch. *)
Theorem flush_keeps_batch_on_retryable_error s err w1 :
  idle s -> batch_of s <> [] ->
  onError (config (batcher s)) = true ->
  sendBatch (config (batcher s)) (batch_of s) (world s) = (Retry.Threw (Some err), w1) ->
  Retry.isRetryableError err = true ->
  (flush s).1 = Resolved
  /\ queue_of (flush s).2 = queue_of s
  /\ batch_of (flush s).2 = batch_of s
  /\ world (flush s).2 = record_io (ErrorObserved err (batch_of s)) w1
  /\ idle (flush s).2.
Proof.
  intros [Hp Hs] Hbatch Hobs Hsend Hretry. unfold idle.
  open_flush s. by rewrite Hsend, Hobs, Hretry.
Qed.

(** X8.  Without an error observer (the client's [throwOnError]), a flush
    whose call of the collector throws rejects with that error and removes
    nothing, whether the error is retryable or not: the observer-less path
    rethrows before the events of a permanent failure are dropped.  The
    flag is cleared all the same. *)
Theorem flush_rethrows_without_observer s err w1 :
  idle s -> batch_of s <> [] ->
  onError (config (batcher s)) = false ->
  sendBatch (config (batcher s)) (batch_of s) (world s) = (Retry.Threw (Some err), w1) ->
  (flush s).1 = Rejected err
  /\ queue_of (flush s).2 = queue_of s
  /\ world (flush s).2 = w1
  /\ idle (flush s).2.
Proof.
  intros [Hp Hs] Hbatch Hobs Hsend. unfold idle.
  open_flush s. by rewrite Hsend, Hobs.
Qed.

Lemma accepted_ids_subseteq result events id :
  id ∈ accepted_ids result events -> id ∈ event_id <$> events.
Proof.
  intros (e & He & <- & _)%accepted_ids_elem. apply list_elem_of_fmap. by exists e.
Qed.

(** However [processBatch] ends, the queue it leaves is the old one less
    some events that carry an identifier of the batch. *)
Lemma processBatch_of_queue events b w :
  Q.queue (storage (processBatch_of events b w).1.2) `sublist_of` Q.queue (storage b)
  /\ (forall e, e ∈ Q.queue (storage b) -> (event_id e ∉ event_id <$> events) ->
        e ∈ Q.queue (storage (processBatch_of events b w).1.2)).
Proof.
  unfold processBatch_of.
  destruct (bool_decide _); [done|].
  destruct (sendBatch _ _ _) as [[result|[err|]] w1]; cbn [fst snd].
  - split; [apply sublist_filter|]. intros e He Hnot.
    apply remove_elem. split; [|done].
    intros Hin. by apply Hnot, (accepted_ids_subseteq result).
  - destruct (onError _); [|done].
    destruct (negb _); [|done]. cbn [fst snd].
    split; [apply sublist_filter|]. intros e He Hnot. by apply remove_elem.
  - by destruct (onError _).
Qed.

(** X9.  Whatever the state of the batcher and whatever the collector
    answers, a flush adds no event to the queue and reorders none, and it
    removes no event whose identifier is not one of the batch it peeked. *)
Theorem flush_only_removes_batch_events s :
  queue_of (flush s).2 `sublist_of` queue_of s
  /\ (forall e, e ∈ queue_of s -> (event_id e ∉ event_id <$> batch_of s) ->
        e ∈ queue_of (flush s).2).
Proof.
  unfold flush, flush_enter.
  destruct (isProcessing (batcher s) || isStopped (batcher s)); [done|].
  cbn [Q.peek fst snd]. unfold flush_leave.
  set (b1 := set_storage _ _).
  pose proof (processBatch_of_queue (batch_of s) b1 (world s)) as [Hsub Hkeep].
  fold (batch_of s).
  change (Q.array_slice0 _ _) with (batch_of s).
  by destruct (processBatch_of _ _ _) as [[r b2] w2].
Qed.

(** X10.  A flush that finds nothing to peek (an empty queue, or a batch
    size of zero) resolves without one effect on the world: the collector
    is not called. *)
Theorem flush_sends_nothing_when_batch_empty s :
  idle s -> batch_of s = [] ->
  (flush s).1 = Resolved
  /\ world (flush s).2 = world s
  /\ queue_of (flush s).2 = queue_of s
  /\ idle (flush s).2
  /\ (queue_of s = [] \/ batchSize (config (batcher s)) = 0 -> batch_of s = []).
Proof.
  intros [Hp Hs] Hbatch. unfold idle.
  assert (Hwhen : queue_of s = [] \/ batchSize (config (batcher s)) = 0 -> batch_of s = []).
  { intros [Hq|Hz]; unfold batch_of, Q.peek, Q.array_slice0; cbn [fst].
    - unfold queue_of in Hq. rewrite Hq. apply take_nil.
    - rewrite Hz. cbn. by rewrite Z.min_l by lia. }
  open_flush s. by rewrite Hbatch.
Qed.

Lemma observed_retried options errs : forall attempt,
  observed (retried options attempt errs) = [].
Proof.
  induction errs as [|e errs IH]; intros attempt; [done|].
  cbn [retried]. rewrite !observed_app, IH. by destruct (Retry.onRetry options).
Qed.

(** X11.  At least once: when the first [n <= maxRetries] calls of the
    collector fail, whatever the errors, and the next returns a result that
    rejects nothing, the flush resolves, no event of the batch is left in
    the queue, the collector was called [n + 1] times with the waits of the
    backoff between, and the error observer was not called. *)
Theorem flush_delivers_after_transient_failures s n errs env_n result env' :
  idle s -> batch_of s <> [] ->
  0 <= maxRetries (config (batcher s)) ->
  (n <= Z.to_nat (maxRetries (config (batcher s))))%nat ->
  let send := post_events (config (batcher s)) (batch_of s)
                (randomUUID (env (world s))).1 in
  failures send n (randomUUID (env (world s))).2 = Some (errs, env_n) ->
  send env_n = (inr result, env') ->
  rejects_nothing result ->
  (flush s).1 = Resolved
  /\ (forall e, e ∈ batch_of s -> e ∉ queue_of (flush s).2)
  /\ (exists t,
        trace (world (flush s).2) = trace (world s) ++ t
        /\ invocations t = S n
        /\ observed t = []
        /\ waits t = (fun attempt =>
                        Z.min (retryDelay (config (batcher s)) * 2 ^ attempt) 30000)
                     <$> seqZ 0 (Z.of_nat n)).
Proof.
  intros Hidle Hbatch Hm Hn send Hfail Hok Hnone.
  set (options := {| Retry.maxRetries := maxRetries (config (batcher s));
                     Retry.retryDelay := retryDelay (config (batcher s));
                     Retry.maxDelay := None; Retry.onRetry := true |}).
  set (t := retried options 0 errs ++ [Invoked (Z.of_nat n)]).
  assert (Hsend : sendBatch (config (batcher s)) (batch_of s) (world s)
                  = (Retry.Returned result,
                     {| env := env'; trace := trace (world s) ++ t |})).
  { unfold sendBatch. subst send.
    destruct (randomUUID (env (world s))) as [uuid env1]. cbn [fst snd] in *.
    pose proof (withRetry_after_failures
                  (post_events (config (batcher s)) (batch_of s) uuid) options
                  {| env := env1; trace := trace (world s) |} n errs env_n Hm Hn Hfail)
      as Hrun.
    by rewrite Hok in Hrun. }
  destruct (flush_returned s result _ Hidle Hbatch Hsend) as (Hres & Hst & _ & _ & _ & Hw).
  split_and!; [done | |].
  - intros e He Hin. unfold queue_of in Hin. rewrite Hst, accepted_ids_all in Hin by done.
    apply remove_elem in Hin as [Hnot _]. apply Hnot, list_elem_of_fmap. by exists e.
  - exists t. rewrite Hw. split_and!; [done | | |]; subst t.
    + rewrite invocations_app, invocations_retried, (failures_length _ _ _ _ _ Hfail).
      change (invocations [Invoked _]) with 1%nat. lia.
    + by rewrite observed_app, observed_retried.
    + rewrite waits_app, waits_retried, (failures_length _ _ _ _ _ Hfail).
      cbn. by rewrite app_nil_r.
Qed.

(** What [processBatch] does depends on the batcher only through its
    configuration and its storage. *)
Lemma processBatch_of_flags events b1 b2 w :
  config b1 = config b2 -> storage b1 = storage b2 ->
  (processBatch_of events b1 w).1.1 = (processBatch_of events b2 w).1.1
  /\ storage (processBatch_of events b1 w).1.2 = storage (processBatch_of events b2 w).1.2
  /\ (processBatch_of events b1 w).2 = (processBatch_of events b2 w).2.
Proof.
  intros Hcfg Hst. unfold processBatch_of. rewrite Hcfg.
  destruct (bool_decide _); [done|].
  destruct (sendBatch _ _ _) as [[result|[err|]] w1]; cbn.
  - by rewrite Hst.
  - destruct (onError _); [|done]. destruct (negb _); cbn; by rewrite ?Hst.
  - by destruct (onError _).
Qed.

(** X12.  [stop] does not cancel a flush that is under way: when the
    suspended flush goes on after [stop], it ends as it would have without
    it, with the same completion, the same queue and the same effects on
    the world; the batcher stays stopped.  Calling [stop] again changes
    nothing. *)
Theorem stop_keeps_flush_in_flight s :
  suspended s <> [] ->
  (resume (stop s).2).1 = (resume s).1
  /\ queue_of (resume (stop s).2).2 = queue_of (resume s).2
  /\ world (resume (stop s).2).2 = world (resume s).2
  /\ isStopped (batcher (resume (stop s).2).2) = true
  /\ isProcessing (batcher (resume (stop s).2).2) = false
  /\ stop (stop s).2 = stop s.
Proof.
  intros Hsome.
  assert (Hstop : stop s = (Resolved, with_batcher
            {| config := config (batcher s); storage := storage (batcher s);
               flushTimer := None; isProcessing := isProcessing (batcher s);
               isStopped := true |} s)).
  { unfold stop. apply flush_guard. cbn. apply orb_true_r. }
  split_and!.
  6:{ rewrite Hstop. cbn [snd]. unfold stop. apply flush_guard. cbn. apply orb_true_r. }
  all: rewrite Hstop; cbn [snd]; unfold resume, queue_of; cbn [suspended with_batcher batcher world].
  all: destruct (suspended s) as [|events rest]; [done|].
  all: unfold flush_leave.
  all: set (b1 := Build_EventBatcher _ _ _ _ _).
  all: destruct (processBatch_of_flags events b1 (batcher s) (world s) eq_refl eq_refl)
         as (Hr & Hq & Hw).
  all: pose proof (flush_leave_flags events b1 (world s)) as (Hproc & Hstopped & _).
  all: unfold flush_leave in Hproc, Hstopped.
  all: destruct (processBatch_of events b1 (world s)) as [[r1 b1'] w1'].
  all: destruct (processBatch_of events (batcher s) (world s)) as [[r2 b2'] w2'].
  all: subst b1; cbn in *; subst; rewrite ?Hq; done.
Qed.


End batcher_extras.

Lemma flush_keeps_batch_on_retryable_error_witness :
  let busy := http_response 503 "Service Unavailable" (inl (new_Error "no body")) in
  let s := Batcher.start (sample_config 100 1 true)
             (Q.push_all [sample_event "a"; sample_event "b"] createQueueStorage)
             (constant_world busy) in
  queue_of (Batcher.flush s).2 = [sample_event "a"; sample_event "b"]
  /\ observed (trace (Batcher.world (Batcher.flush s).2))
     = [(Batcher.http_error 503 "Service Unavailable",
         [sample_event "a"; sample_event "b"])].
Proof.
  intros busy s.
  edestruct (flush_keeps_batch_on_retryable_error s) as (_ & Hqueue & _ & Hworld & _).
  - split; reflexivity.
  - vm_compute. discriminate.
  - reflexivity.
  - reflexivity.
  - reflexivity.
  - split; [rewrite Hqueue | rewrite Hworld]; reflexivity.
Defined.

Lemma flush_rethrows_without_observer_witness :
  let refusal := http_response 400 "Bad Request" (inl (new_Error "no body")) in
  let s := Batcher.start (sample_config 100 1 false)
             (Q.push_all [sample_event "a"] createQueueStorage)
             (constant_world refusal) in
  (Batcher.flush s).1 = Rejected (Batcher.http_error 400 "Bad Request")
  /\ queue_of (Batcher.flush s).2 = [sample_event "a"].
Proof.
  intros refusal s.
  edestruct (flush_rethrows_without_observer s) as (Hrejected & Hqueue & _).
  - split; reflexivity.
  - vm_compute. discriminate.
  - reflexivity.
  - reflexivity.
  - split; [exact Hrejected | rewrite Hqueue; reflexivity].
Defined.

Lemma flush_sends_nothing_when_batch_empty_witness :
  let s := Batcher.start (sample_config 100 3 true) createQueueStorage
             (constant_world (accepting 0 [])) in
  Batcher.world (Batcher.flush s).2 = Batcher.world s.
Proof.
  intros s.
  destruct (flush_sends_nothing_when_batch_empty s) as (_ & Hworld & _).
  - split; reflexivity.
  - reflexivity.
  - exact Hworld.
Defined.

Lemma flush_delivers_after_transient_failures_witness :
  let busy := http_response 503 "Service Unavailable" (inl (new_Error "no body")) in
  let s := Batcher.start (sample_config 100 3 true)
             (Q.push_all [sample_event "a"; sample_event "b"] createQueueStorage)
             (scripted_world [busy; accepting 2 []]) in
  (forall e, e ∈ batch_of s -> e ∉ queue_of (Batcher.flush s).2)
  /\ exists t, trace (Batcher.world (Batcher.flush s).2) = t /\ waits t = [1000].
Proof.
  intros busy s.
  edestruct (flush_delivers_after_transient_failures s 1)
    as (_ & Hgone & t & Htrace & _ & _ & Hwaits).
  - split; reflexivity.
  - vm_compute. discriminate.
  - vm_compute. discriminate.
  - vm_compute. lia.
  - reflexivity.
  - reflexivity.
  - intros id. reflexivity.
  - split; [exact Hgone|]. exists t. split; [exact Htrace | exact Hwaits].
Defined.

Lemma stop_keeps_flush_in_flight_witness :
  let s := Batcher.start (sample_config 2 3 true)
             (Q.push_all [sample_event "a"] createQueueStorage)
             (constant_world (accepting 2 [])) in
  let s1 := Batcher.run [Batcher.CallAdd (sample_event "b")] s in
  queue_of (Batcher.resume (Batcher.stop s1).2).2 = [].
Proof.
  intros s s1.
  destruct (stop_keeps_flush_in_flight s1) as (_ & Hqueue & _).
  - vm_compute. discriminate.
  - rewrite Hqueue. reflexivity.
Defined.


(** *** The loggers *)

(** X14.  A [ConsoleLogger] writes, in the order of the calls and with its
    prefix, every [warn] and every [error], enabled or not, and [debug] and
    [info] only when it is enabled; a [NoOpLogger] writes nothing. *)
Theorem console_logger_writes (l : Loggers.ConsoleLogger)
    (calls : list Loggers.LogCall) (console : list Loggers.Line) :
  Loggers.log_all l calls console
  = console ++ (line_of l <$>
                filter (fun c => Loggers.enabled l
                                 || always_written (Loggers.call_level c) = true) calls)
  /\ Loggers.log_all Loggers.new_NoOpLogger calls console = console.
Proof.
  split.
  - revert console. induction calls as [|c calls IH]; intros console.
    + cbn. by rewrite app_nil_r.
    + change (Loggers.log_all l (c :: calls) console)
        with (Loggers.log_all l calls (Loggers.log l console c)).
      rewrite IH. destruct c as [lv message data].
      destruct lv, (Loggers.enabled l) eqn:Hen;
        unfold Loggers.log; cbn [Loggers.call_level Loggers.debug Loggers.info
                                 Loggers.warn Loggers.error Loggers.console_logger];
        rewrite ?Hen; cbn [negb];
        first [ rewrite filter_cons_True by (cbn; by rewrite ?Hen);
                unfold Loggers.write; cbn; by rewrite <- (assoc_L (++))
              | rewrite filter_cons_False by (cbn; by rewrite ?Hen); done ].
  - revert console. induction calls as [|c calls IH]; intros console; [done|].
    change (Loggers.log_all Loggers.new_NoOpLogger (c :: calls) console)
      with (Loggers.log_all Loggers.new_NoOpLogger calls
              (Loggers.log Loggers.new_NoOpLogger console c)).
    rewrite IH. unfold Loggers.log. by destruct (Loggers.call_level c).
Qed.

(** *** The identity manager *)

Section identity_extras.

Context `{Identity.Crypto}.
Import Identity.

(** X15.  A manager has an identity after its constructor exactly when the
    configuration gives a [did] and a [privateKey] that are both not
    empty; after [setIdentity(did, key)] exactly when [did] is not empty,
    an empty [key] included.  Without an identity [signEvent] and
    [createAuthHeader] resolve with [null], neither reading the clock nor
    signing. *)
Theorem identity_needs_did_and_key (config : IdentityConfig) (d k : string)
    (m : IdentityManager) (eventId agentId nonce : string) (c : Clock) :
  (hasIdentity (constructor config) = true <->
     exists d0 k0, did config = Some d0 /\ d0 <> ""
                   /\ privateKey config = Some k0 /\ k0 <> "")
  /\ (hasIdentity (setIdentity d k m) = true <-> d <> "")
  /\ (hasIdentity m = false ->
        signEvent eventId agentId m c = (inr None, c)
        /\ createAuthHeader nonce m c = (inr None, c)).
Proof.
  split_and!.
  - unfold hasIdentity, constructor. cbn.
    destruct (did config) as [d0|], (privateKey config) as [k0|]; cbn.
    + destruct (decide (k0 = "")) as [->|Hk0].
      * rewrite bool_decide_eq_true_2 by done. split; [done|].
        by intros (? & ? & _ & _ & [= <-] & ?).
      * rewrite (bool_decide_eq_false_2 (k0 = "")) by done.
        destruct (decide (d0 = "")) as [->|Hd0].
        -- split; [done|]. by intros (? & ? & [= <-] & ? & _).
        -- rewrite bool_decide_eq_false_2 by done. split; [|done].
           intros _. by exists d0, k0.
    + split; [done|]. by intros (? & ? & _ & _ & [=] & _).
    + split; [done|]. by intros (? & ? & [=] & _).
    + split; [done|]. by intros (? & ? & [=] & _).
  - unfold hasIdentity, setIdentity. cbn.
    destruct (decide (d = "")) as [->|Hd].
    + by rewrite bool_decide_eq_true_2.
    + by rewrite bool_decide_eq_false_2.
  - intros Hnone. unfold signEvent, createAuthHeader. by rewrite Hnone.
Qed.

Lemma setIdentity_all_autoSign calls : forall m,
  m_autoSign (setIdentity_all calls m) = m_autoSign m.
Proof.
  induction calls as [|[d k] calls IH]; intros m; [done|].
  change (setIdentity_all ((d, k) :: calls) m)
    with (setIdentity_all calls (setIdentity d k m)).
  by rewrite IH.
Qed.

(** X16.  [autoSign] is set by the constructor and by nothing else: a
    manager built without [autoSign: true] signs no event, whatever
    identities [setIdentity] gives it afterwards; [signEvent] resolves with
    [null] and leaves the clock unread. *)
Theorem signEvent_needs_autoSign (config : IdentityConfig)
    (calls : list (string * string)) (eventId agentId : string) (c : Clock) :
  autoSign config <> Some true ->
  signEvent eventId agentId (setIdentity_all calls (constructor config)) c
  = (inr None, c).
Proof.
  intros Hauto. unfold signEvent.
  rewrite setIdentity_all_autoSign. cbn [constructor m_autoSign].
  assert (default false (autoSign config) = false) as ->.
  { by destruct (autoSign config) as [[]|]. }
  cbn. by rewrite orb_true_r.
Qed.

End identity_extras.

Lemma identity_needs_did_and_key_witness :
  let m := Identity.constructor (H := PlainCrypto)
             {| Identity.did := Some "did:key:z6Mk"; Identity.privateKey := Some "";
                Identity.autoSign := Some true |} in
  Identity.signEvent (H := PlainCrypto) "event" "agent" m 7 = (inr None, 7)
  /\ Identity.hasIdentity (Identity.setIdentity (H := PlainCrypto) "did:key:z6Mk" "" m) = true.
Proof.
  intros m.
  destruct (identity_needs_did_and_key (H := PlainCrypto)
              {| Identity.did := None; Identity.privateKey := None;
                 Identity.autoSign := None |}
              "did:key:z6Mk" "" m "event" "agent" "nonce" 7)
    as (_ & Hset & Hnull).
  split.
  - apply Hnull. reflexivity.
  - apply Hset. discriminate.
Defined.

Lemma signEvent_needs_autoSign_witness :
  let config := {| Identity.did := Some "did:key:z6Mk"; Identity.privateKey := Some "c2VjcmV0";
                   Identity.autoSign := None |} in
  Identity.signEvent (H := PlainCrypto) "event" "agent"
    (Identity.setIdentity_all (H := PlainCrypto) [("did:key:other", "a2V5")]
       (Identity.constructor (H := PlainCrypto) config)) 7
  = (inr None, 7)
  /\ Identity.hasIdentity (Identity.constructor (H := PlainCrypto) config) = true.
Proof.
  intros config. split; [|reflexivity].
  apply (signEvent_needs_autoSign (H := PlainCrypto)). discriminate.
Defined.

(** *** The client *)

Section facade_extras.

Context `{Network}.
Import Facade.

Lemma flush_detached_storage (s : Batcher.System) :
  Batcher.storage (Batcher.batcher (Batcher.flush_detached s))
  = Batcher.storage (Batcher.batcher s)
  /\ Batcher.world (Batcher.flush_detached s) = Batcher.world s.
Proof.
  unfold Batcher.flush_detached, Batcher.flush_enter.
  by destruct (Batcher.isProcessing _ || Batcher.isStopped _).
Qed.

(** [add] on a batcher that is not stopped: the storage afterwards and the
    world. *)
Lemma add_running e (s : Batcher.System) :
  Batcher.isStopped (Batcher.batcher s) = false ->
  (Batcher.add e s).1 = None
  /\ Batcher.storage (Batcher.batcher (Batcher.add e s).2)
     = Q.push e (Batcher.storage (Batcher.batcher s))
  /\ Batcher.world (Batcher.add e s).2 = Batcher.world s.
Proof.
  intros Hrun. unfold Batcher.add. rewrite Hrun.
  set (s1 := Batcher.with_batcher _ s).
  destruct (_ >=? _); cbn [fst snd]; [|done].
  destruct (flush_detached_storage s1) as [-> ->]. done.
Qed.

(** X17.  After [shutdown], [recordEvent] queues nothing and calls nothing:
    with [throwOnError] it rejects with the error of the stopped batcher,
    and without it the call resolves as if the event had been recorded. *)
Theorem recordEvent_after_shutdown (options : RecordEventOptions.t) (st : ClientState) :
  let st' := (shutdown st).2 in
  (recordEvent options st').1
  = (if Client.throwOnError' (config st)
     then Some (new_Error "Batcher has been stopped") else None)
  /\ queue_of (system (recordEvent options st').2) = queue_of (system st)
  /\ trace (Batcher.world (system (recordEvent options st').2))
     = trace (Batcher.world (system st)).
Proof.
  intros st'. subst st'. unfold shutdown.
  destruct (stop_skips_flush (system st)) as (_ & Hst & Hw & _ & _ & Hstopped & _).
  destruct (Batcher.stop (system st)) as [r sys]. cbn [snd] in *.
  unfold recordEvent. cbn [system config].
  destruct (randomUUID (env (Batcher.world sys))) as [uuid env1].
  rewrite add_stopped by done.
  unfold queue_of.
  destruct (Client.throwOnError' (config st)); cbn; by rewrite Hst, Hw.
Qed.

(** X18.  On a client that is not shut down, [recordSuccess] resolves and
    leaves as the newest of the queue one event, with a fresh identifier
    and the status [success] whatever the options say; its agent and
    framework are those of the options, or of the configuration when the
    options give none; by the simple form its task id is the [taskId] of
    the options when there is one and its latency is [responseTime], or 100
    when that is absent or zero. *)
Theorem recordSuccess_queues_success (args : SuccessArgs) (st : ClientState) :
  Batcher.isStopped (Batcher.batcher (system st)) = false ->
  (recordSuccess args st).1 = None
  /\ exists e,
       last (queue_of (system (recordSuccess args st).2)) = Some e
       /\ status e = success
       /\ event_id e = (randomUUID (env (Batcher.world (system st)))).1
       /\ agent_id e = Client.or_string
                         (RecordEventOptions.agent_id (recordSuccess_options args))
                         (Client.agentId' (config st))
       /\ framework e = Client.or_string
                          (RecordEventOptions.framework (recordSuccess_options args))
                          (Client.framework' (config st))
       /\ match args with
          | Legacy taskId latencyMs => task_id e = taskId /\ latency_ms e = latencyMs
          | Enhanced options =>
              task_id e = RecordEventOptions.task_id options
              /\ latency_ms e = RecordEventOptions.latency_ms options
          | Simple taskId options =>
              task_id e = Client.or_string (SimpleRecordOptions.taskId options) taskId
              /\ defaulted (SimpleRecordOptions.responseTime options) 100 (latency_ms e)
          end.
Proof.
  intros Hrun. unfold recordSuccess, recordEvent.
  destruct (randomUUID (env (Batcher.world (system st)))) as [uuid env1]. cbn [fst].
  set (event := Build_AgentEvent _ _ _ _ _ _).
  set (sys1 := Batcher.Build_System _ _ _).
  destruct (add_running event sys1 Hrun) as (Hnone & Hst & _).
  destruct (Batcher.add event sys1) as [thrown sys2]. cbn [fst snd] in *. subst thrown.
  split; [done|]. exists event. unfold queue_of. cbn [fst snd system]. rewrite Hst.
  split; [apply last_snoc|]. subst event. cbn [status event_id agent_id framework
                                               task_id latency_ms].
  destruct args as [taskId latencyMs|options|taskId options];
    split_and!; try done.
  apply or_number_defaulted.
Qed.

(** X19.  [recordFailure] takes its first argument for a task id whenever
    it is a string, and a fail reason is one: called as
    [recordFailure(reason, options)], the object it records has the reason
    as its task id, the options object as its latency and no fail reason.
    The fail reason of what is recorded is the third argument when the
    first is a string, and is undefined otherwise. *)
Theorem recordFailure_takes_reason_for_task_id (first : option string)
    (reason : string) (second : SecondArg) (third : option string) :
  f_task_id (recordFailure_options (Some reason) second None) = Some reason
  /\ f_latency_ms (recordFailure_options (Some reason) second None) = second
  /\ f_fail_reason (recordFailure_options (Some reason) second None) = None
  /\ f_fail_reason (recordFailure_options first second third)
     = match first with Some _ => third | None => None end.
Proof.
  split_and!; [done | done | done |].
  destruct first; [done|]. by destruct second.
Qed.

(** X20.  [updateConfig] changes the configuration of the client and
    nothing of its batcher: the batcher keeps the batch size, the retries,
    the delays, the endpoint and the error observer it was built with, so
    that [flush] does after the update what it did before; a tunable
    updated takes the value given as it is, zero included, and
    [throwOnError] updated changes what [recordEvent] throws. *)
Theorem updateConfig_leaves_batcher (updates : ConfigUpdates)
    (cfg : Client.IdentroConfig) (generated : string)
    (client : Client.IdentroClient) (w : World) :
  Client.constructor cfg generated = inr client ->
  let st := attach client w in
  system (updateConfig updates st) = system st
  /\ Batcher.config (Batcher.batcher (system (updateConfig updates st)))
     = Batcher.config (Client.batcher client)
  /\ Batcher.onError (Batcher.config (Batcher.batcher (system (updateConfig updates st))))
     = negb (Client.or_false (Client.throwOnError cfg))
  /\ (Facade.flush (updateConfig updates st)).1 = (Facade.flush st).1
  /\ system (Facade.flush (updateConfig updates st)).2 = system (Facade.flush st).2
  /\ Client.batchSize' (config (updateConfig updates st))
     = default (Client.or_number (Client.batchSize cfg) 100) (u_batchSize updates)
  /\ Client.maxRetries' (config (updateConfig updates st))
     = default (Client.or_number (Client.maxRetries cfg) 3) (u_maxRetries updates)
  /\ Client.throwOnError' (config (updateConfig updates st))
     = default (Client.or_false (Client.throwOnError cfg)) (u_throwOnError updates).
Proof.
  unfold Client.constructor. destruct (bool_decide _); [done|].
  intros [= <-]. unfold Facade.flush, updateConfig, attach.
  cbn [system config]. split_and!; try done.
  - by destruct (Batcher.flush _).
  - by destruct (Batcher.flush _).
Qed.

(** X21.  [new IdentroClient(config)] throws 'API key is required' for an
    empty key and for nothing else.  The batcher it builds posts to the
    [endpoint] given, else to the [baseUrl] given, else to
    https://api.identro.com; it has an error observer unless
    [throwOnError] is true; it starts with an empty queue of capacity
    10000, its timer set to the flush interval, neither processing nor
    stopped. *)
Theorem constructor_builds_batcher (cfg : Client.IdentroConfig) (generated : string) :
  (Client.apiKey cfg = ""
   /\ Client.constructor cfg generated = inl (new_Error "API key is required"))
  \/ (Client.apiKey cfg <> ""
      /\ exists client,
           Client.constructor cfg generated = inr client
           /\ let b := Client.batcher client in
              (forall u, Client.endpoint cfg = Some u -> u <> "" ->
                 Batcher.endpoint (Batcher.config b) = u)
              /\ (Client.endpoint cfg = None \/ Client.endpoint cfg = Some "" ->
                  (forall u, Client.baseUrl cfg = Some u -> u <> "" ->
                     Batcher.endpoint (Batcher.config b) = u)
                  /\ (Client.baseUrl cfg = None \/ Client.baseUrl cfg = Some "" ->
                      Batcher.endpoint (Batcher.config b) = "https://api.identro.com"))
              /\ Batcher.apiKey (Batcher.config b) = Client.apiKey cfg
              /\ (Batcher.onError (Batcher.config b) = false
                  <-> Client.throwOnError cfg = Some true)
              /\ Batcher.storage b = {| Q.queue := []; Q.maxSize := 10000 |}
              /\ Batcher.flushTimer b = Some (Client.flushInterval' (Client.config client))
              /\ Batcher.isProcessing b = false
              /\ Batcher.isStopped b = false).
Proof.
  unfold Client.constructor.
  destruct (decide (Client.apiKey cfg = "")) as [Hkey|Hkey].
  - left. by rewrite bool_decide_eq_true_2.
  - right. split; [done|]. rewrite bool_decide_eq_false_2 by done.
    eexists. split; [reflexivity|]. cbn.
    split_and!; try done.
    + intros u -> Hu. unfold Client.or_string. by case_bool_decide.
    + intros Hnone. split.
      * intros u Hbase Hu. rewrite Hbase.
        destruct Hnone as [->| ->]; unfold Client.or_string;
          repeat case_bool_decide; done.
      * intros Hbase. destruct Hnone as [->| ->], Hbase as [->| ->];
          unfold Client.or_string; repeat case_bool_decide; done.
    + destruct (Client.throwOnError cfg) as [[]|]; cbn; split; done.
Qed.

(** X22.  Zero cannot be configured: whatever is supplied, the batch size,
    the flush interval, the retry count and the retry delay of the batcher
    a client builds are never zero, and a supplied [maxRetries: 0] gives a
    batcher that retries three times. *)
Theorem constructor_never_zero (cfg : Client.IdentroConfig) (generated : string)
    (client : Client.IdentroClient) :
  Client.constructor cfg generated = inr client ->
  Batcher.batchSize (Batcher.config (Client.batcher client)) <> 0
  /\ Batcher.flushInterval (Batcher.config (Client.batcher client)) <> 0
  /\ Batcher.maxRetries (Batcher.config (Client.batcher client)) <> 0
  /\ Batcher.retryDelay (Batcher.config (Client.batcher client)) <> 0
  /\ (Client.maxRetries cfg = Some 0 ->
        Batcher.maxRetries (Batcher.config (Client.batcher client)) = 3).
Proof.
  assert (Hor : forall a d, d <> 0 -> Client.or_number a d <> 0).
  { intros [v|] d Hd; cbn; [|done]. by destruct (Z.eqb_spec v 0). }
  unfold Client.constructor. destruct (bool_decide _); [done|].
  intros [= <-]. cbn.
  split_and!; try (by apply Hor). by intros ->.
Qed.

End facade_extras.

Lemma recordSuccess_queues_success_witness :
  exists client,
    Client.constructor (plain_config None) "agent-1" = inr client
    /\ let st := Facade.attach client (constant_world (accepting 1 [])) in
       let args := Facade.Simple "task-1"
                     {| SimpleRecordOptions.taskId := None;
                        SimpleRecordOptions.responseTime := Some 0 |} in
       exists e, last (queue_of (Facade.system (Facade.recordSuccess args st).2)) = Some e
                 /\ status e = success /\ latency_ms e = 100.
Proof.
  eexists. split; [reflexivity|]. intros st args.
  destruct (recordSuccess_queues_success (H := Constant (accepting 1 [])) args st)
    as (_ & e & Hlast & Hstatus & _ & _ & _ & _ & Hlatency).
  - reflexivity.
  - exists e. split; [exact Hlast|]. split; [exact Hstatus|].
    destruct Hlatency as (_ & Hzero & _). by apply Hzero.
Defined.

Lemma updateConfig_leaves_batcher_witness :
  exists client,
    Client.constructor (plain_config None) "agent-1" = inr client
    /\ let st := Facade.attach client (constant_world (accepting 1 [])) in
       let updates :=
         {| Facade.u_apiKey := None; Facade.u_endpoint := None; Facade.u_baseUrl := None;
            Facade.u_batchSize := Some 5; Facade.u_flushInterval := None;
            Facade.u_maxRetries := None; Facade.u_retryDelay := None;
            Facade.u_throwOnError := None; Facade.u_debug := None;
            Facade.u_agentId := None; Facade.u_framework := None |} in
       Batcher.batchSize
         (Batcher.config (Batcher.batcher (Facade.system (Facade.updateConfig updates st))))
       = 100
       /\ Client.batchSize' (Facade.config (Facade.updateConfig updates st)) = 5.
Proof.
  eexists. split; [reflexivity|]. intros st updates.
  pose proof (fun client built =>
                updateConfig_leaves_batcher (H := Constant (accepting 1 [])) updates
                  (plain_config None) "agent-1" client
                  (constant_world (accepting 1 [])) built) as Hkept.
  destruct (Hkept _ eq_refl) as (_ & Hbatcher & _ & _ & _ & Hsize & _).
  subst st. rewrite Hbatcher, Hsize. split; reflexivity.
Defined.

Lemma constructor_never_zero_witness :
  exists client,
    Client.constructor (tunables (Some 0) (Some 0) (Some 0) (Some 0)) "agent-1" = inr client
    /\ Batcher.maxRetries (Batcher.config (Client.batcher client)) = 3.
Proof.
  eexists. split; [reflexivity|].
  edestruct (constructor_never_zero (tunables (Some 0) (Some 0) (Some 0) (Some 0)) "agent-1")
    as (_ & _ & _ & _ & Hthree).
  - reflexivity.
  - by apply Hthree.
Defined.

(** *** The pipeline as a whole *)

Section pipeline_extras.

Context `{Network}.
Import Batcher.
Implicit Types (s : System) (b : EventBatcher) (w : World).

(** While an attempt remains, what the loop throws in the end is the error
    of a call, never [undefined]. *)
Lemma attempts_throw_an_error {T} (fn : Env -> (JsError + T) * Env) options remaining :
  forall attempt lastError w x,
    remaining <> 0%nat ->
    Z.of_nat remaining = Retry.maxRetries options + 1 - attempt ->
    (Retry.attempts fn options remaining attempt lastError w).1 = Retry.Threw x ->
    x <> None.
Proof.
  induction remaining as [|remaining IH]; intros attempt lastError w x Hsome Hrem; [done|].
  cbn [Retry.attempts]. destruct (fn (env w)) as [[error|v] e1]; [|done].
  destruct (Z.eqb_spec attempt (Retry.maxRetries options)) as [Heq|Hne].
  - cbn. by intros [= <-].
  - apply IH; lia.
Qed.

Lemma sendBatch_throws_an_error cfg events w x w1 :
  0 <= maxRetries cfg ->
  sendBatch cfg events w = (Retry.Threw x, w1) -> x <> None.
Proof.
  intros Hm. unfold sendBatch, Retry.withRetry.
  destruct (randomUUID (env w)) as [batch_id env1]. intros Hsend.
  set (options := Retry.Build_RetryOptions _ _ _ _) in Hsend.
  apply (attempts_throw_an_error (post_events cfg events batch_id) options
           (Z.to_nat (Retry.maxRetries options + 1)) 0 None
           {| env := env1; trace := trace w |}).
  - subst options. cbn [Retry.maxRetries]. lia.
  - subst options. cbn [Retry.maxRetries]. lia.
  - by rewrite Hsend.
Qed.

Lemma processBatch_of_resolves events b w :
  onError (config b) = true -> 0 <= maxRetries (config b) ->
  (processBatch_of events b w).1.1 = Resolved.
Proof.
  intros Hobs Hm. unfold processBatch_of.
  destruct (bool_decide _); [done|].
  destruct (sendBatch _ _ _) as [[result|x] w1] eqn:Hsend; [done|].
  rewrite Hobs. destruct x as [err|].
  - by destruct (negb _).
  - by apply sendBatch_throws_an_error in Hsend.
Qed.

(** X23.  With an error observer configured (the client's default) and a
    [maxRetries] that is not negative, no flush ever rejects, whatever the
    state of the batcher and whatever the collector does: a failure of the
    delivery reaches the observer and not the caller. *)
Theorem flush_never_rejects_with_observer s :
  onError (config (batcher s)) = true ->
  0 <= maxRetries (config (batcher s)) ->
  (flush s).1 = Resolved /\ (resume s).1 = Resolved.
Proof.
  intros Hobs Hm. split.
  - unfold flush, flush_enter.
    destruct (isProcessing (batcher s) || isStopped (batcher s)); [done|].
    cbn [Q.peek fst snd]. unfold flush_leave.
    set (b1 := set_storage _ _).
    pose proof (processBatch_of_resolves (Q.array_slice0 (batchSize (config (batcher s)))
                  (Q.queue (storage (batcher s)))) b1 (world s) Hobs Hm) as Hres.
    cbn [set_isProcessing config] in *.
    by destruct (processBatch_of _ _ _) as [[r b2] w2].
  - unfold resume. destruct (suspended s) as [|events rest]; [done|].
    unfold flush_leave.
    pose proof (processBatch_of_resolves events (batcher s) (world s) Hobs Hm) as Hres.
    by destruct (processBatch_of _ _ _) as [[r b2] w2].
Qed.

Lemma processBatch_of_maxSize events b w :
  Q.maxSize (storage (processBatch_of events b w).1.2) = Q.maxSize (storage b).
Proof.
  unfold processBatch_of.
  destruct (bool_decide _); [done|].
  destruct (sendBatch _ _ _) as [[result|[err|]] w1]; [done | |].
  - destruct (onError _); [|done]. by destruct (negb _).
  - by destruct (onError _).
Qed.

Lemma flush_leave_within events b w (M : Z) :
  Q.maxSize (storage b) = M -> Q.size (storage b) <= M ->
  Q.maxSize (storage (flush_leave events b w).1.2) = M
  /\ Q.size (storage (flush_leave events b w).1.2) <= M.
Proof.
  intros Hmax Hsize. unfold flush_leave.
  pose proof (processBatch_of_maxSize events b w) as Hm.
  pose proof (processBatch_of_queue events b w) as [Hsub _].
  destruct (processBatch_of events b w) as [[r b2] w2]. cbn in *.
  split; [congruence|]. apply sublist_length in Hsub. unfold Q.size in *. lia.
Qed.

Lemma push_within e (st : Q.t) :
  0 < Q.maxSize st -> Q.size st <= Q.maxSize st ->
  Q.size (Q.push e st) <= Q.maxSize st.
Proof.
  intros Hpos Hle. unfold Q.size. rewrite push_queue, length_drop by done.
  rewrite length_app. cbn. unfold Q.size in Hle. lia.
Qed.

(** X24.  Bounded memory: a batcher started on a queue of positive capacity
    holds, after any calls of [add], [flush] and [stop], any ticks of the
    timer and any progress of its flushes, no more events than the
    capacity, and the capacity never changes. *)
Theorem queue_stays_within_capacity cfg (st : Q.t) w (calls : list Call) :
  0 < Q.maxSize st -> Q.size st <= Q.maxSize st ->
  Q.maxSize (storage (batcher (run calls (start cfg st w)))) = Q.maxSize st
  /\ Q.size (storage (batcher (run calls (start cfg st w)))) <= Q.maxSize st.
Proof.
  intros Hpos Hle.
  assert (Hinv : forall calls s,
            Q.maxSize (storage (batcher s)) = Q.maxSize st
            /\ Q.size (storage (batcher s)) <= Q.maxSize st ->
            Q.maxSize (storage (batcher (run calls s))) = Q.maxSize st
            /\ Q.size (storage (batcher (run calls s))) <= Q.maxSize st).
  { clear calls. induction calls as [|c calls IH]; intros s [Hmax Hsize]; [done|].
    change (run (c :: calls) s) with (run calls (step s c)). apply IH.
    destruct c as [e| | | |]; cbn [step].
    - unfold add. destruct (isStopped (batcher s)); [done|].
      set (s1 := with_batcher _ s).
      assert (Hpushed : Q.maxSize (storage (batcher s1)) = Q.maxSize st
                        /\ Q.size (storage (batcher s1)) <= Q.maxSize st).
      { subst s1. cbn. split; [done|]. rewrite <- Hmax. apply push_within; lia. }
      destruct (_ >=? _); cbn [snd]; [|done].
      by destruct (flush_detached_storage s1) as [-> _].
    - by destruct (flush_detached_storage s) as [-> _].
    - destruct (flushTimer (batcher s)); [|done].
      by destruct (flush_detached_storage s) as [-> _].
    - destruct (stop_skips_flush s) as (_ & -> & _). done.
    - unfold resume. destruct (suspended s) as [|events rest]; [done|].
      pose proof (flush_leave_within events (batcher s) (world s) _ Hmax Hsize) as Hleft.
      by destruct (flush_leave _ _ _) as [[r b2] w2]. }
  by apply Hinv.
Qed.

End pipeline_extras.

Lemma flush_only_removes_batch_events_witness :
  let s := Batcher.start (sample_config 1 3 true)
             (Q.push_all [sample_event "a"; sample_event "b"] createQueueStorage)
             (constant_world (accepting 1 [])) in
  sample_event "b" ∈ queue_of (Batcher.flush s).2.
Proof.
  intros s. destruct (flush_only_removes_batch_events s) as [_ Hkept].
  apply Hkept.
  - apply list_elem_of_In. vm_compute. tauto.
  - apply (bool_decide_unpack _). by vm_compute.
Defined.

Lemma constructor_builds_batcher_witness :
  exists client,
    Client.constructor (plain_config (Some true)) "agent-1" = inr client
    /\ Batcher.onError (Batcher.config (Client.batcher client)) = false
    /\ Batcher.endpoint (Batcher.config (Client.batcher client))
       = "https://api.identro.com".
Proof.
  destruct (constructor_builds_batcher (plain_config (Some true)) "agent-1")
    as [[Hempty _]|(_ & client & Hbuilt & _ & Hendpoint & _ & Hobserver & _)];
    [discriminate|].
  exists client. split; [exact Hbuilt|]. split.
  - by apply Hobserver.
  - destruct Hendpoint as [_ Hdefault]; [by left|]. apply Hdefault. by left.
Defined.

Lemma flush_never_rejects_with_observer_witness :
  let refusal := http_response 400 "Bad Request" (inl (new_Error "no body")) in
  let s := Batcher.start (sample_config 100 1 true)
             (Q.push_all [sample_event "a"] createQueueStorage)
             (constant_world refusal) in
  (Batcher.flush s).1 = Resolved.
Proof.
  intros refusal s. apply (flush_never_rejects_with_observer s).
  - reflexivity.
  - vm_compute. discriminate.
Defined.

Lemma queue_stays_within_capacity_witness :
  let s := Batcher.run [Batcher.CallAdd (sample_event "a");
                        Batcher.CallAdd (sample_event "b");
                        Batcher.CallAdd (sample_event "c")]
             (Batcher.start (sample_config 100 3 true) (Q.constructor (Some 2))
                (constant_world (accepting 1 []))) in
  Q.size (Batcher.storage (Batcher.batcher s)) <= 2.
Proof.
  intros s.
  apply (queue_stays_within_capacity (H := Constant (accepting 1 []))
           (sample_config 100 3 true) (Q.constructor (Some 2))
           (constant_world (accepting 1 []))).
  - reflexivity.
  - vm_compute. discriminate.
Defined.
